(** * The ESP32 AES layer ([components/esp32/aes.c])

    A shallow embedding of the mode-of-operation layer that sits on top of
    the ESP32 hardware AES engine, and the properties of it that the
    design document states.

    Conventions of the embedding.
    - C integers are [Z]; an [unsigned char] is a [Z] in [0, 256) and the
      cast [(unsigned char)] is written out as [u8].  [size_t] lengths,
      which only count loop iterations, are [nat].
    - A buffer is a [list Z].  A pointer into a buffer is the list of the
      bytes from the pointed position on: [*p++] reads the head and moves
      to the tail, [p += 16] is [skipn 16].  Input and output buffers are
      taken not to overlap, and to hold at least [length] bytes.
    - The engine (reference count, power state, installed key schedule) is
      one record that every function threads through, together with a
      log of the calls made to it.
    - A function that writes through a pointer returns the new pointee. *)

From Stdlib Require Import ZArith List Bool Lia.
Import ListNotations.
Local Open Scope Z_scope.

(** ** Bytes and buffers *)

(** The cast [(unsigned char) x]. *)
Definition u8 (x : Z) : Z := x mod 256.

(** [(unsigned char)(a ^ b)]. *)
Definition xor8 (a b : Z) : Z := u8 (Z.lxor a b).

Definition is_byte (x : Z) : Prop := 0 <= x < 256.

Definition bytes (l : list Z) : Prop := Forall is_byte l.

(** [p[i]] for a pointer [p]; reading past the modelled buffer gives 0. *)
Definition rd (p : list Z) (i : nat) : Z := nth i p 0.

(** [p[i] = x]; a store past the modelled buffer is dropped. *)
Fixpoint upd (p : list Z) (i : nat) (x : Z) : list Z :=
  match p, i with
  | [], _ => []
  | _ :: t, O => x :: t
  | h :: t, S j => h :: upd t j x
  end.

(** [memset(dst, 0, n)] on an array of [n] bytes. *)
Definition zeros (n : nat) : list Z := repeat 0 n.

(** [memcpy(dst, src, n)]: the first [n] bytes of [dst] become those of
    [src]. *)
Definition memcpy (dst src : list Z) (n : nat) : list Z :=
  firstn n src ++ skipn n dst.

(** ** Data model *)

(** Return values: [0] and the two error macros, whose numeric values
    are declared in [aes.h]; only that they are distinct from each other
    and from 0 is used. *)
Inductive aes_ret : Type :=
| OK
| ERR_AES_INVALID_KEY_LENGTH
| ERR_AES_INVALID_INPUT_LENGTH.

(** The [mode] argument, one of the macros [AES_ENCRYPT], [AES_DECRYPT]. *)
Inductive aes_mode : Type := AES_ENCRYPT | AES_DECRYPT.

(** The [enum AES_BITS] the ROM routines take for the key size. *)
Inductive AES_BITS : Type := AES128 | AES192 | AES256.

(** Number of key bytes the engine reads for a key size. *)
Definition bits_bytes (b : AES_BITS) : nat :=
  match b with AES128 => 16 | AES192 => 24 | AES256 => 32 end%nat.

(** Modelled from the spec: the type declaration of [AES_CTX] in [aes.h].
    Each direction has a flag, the key size in bits and an array of raw
    key bytes ("up to 32 raw key bytes"). *)
Record key_context : Type := mk_key {
  keyflag : bool;
  keybits : Z;
  key : list Z
}.

Record AES_CTX : Type := mk_ctx {
  enc : key_context;
  dec : key_context
}.

(** [sizeof(ctx->enc.key)]. *)
Definition KEY_SIZE : nat := 32.

(** A key record after [memset(ctx, 0, sizeof(AES_CTX))]. *)
Definition key_zero : key_context :=
  {| keyflag := false; keybits := 0; key := zeros KEY_SIZE |}.

Definition ctx_zero : AES_CTX := {| enc := key_zero; dec := key_zero |}.

Definition set_keyflag (k : key_context) (b : bool) : key_context :=
  {| keyflag := b; keybits := keybits k; key := key k |}.

Definition set_keybits (k : key_context) (n : Z) : key_context :=
  {| keyflag := keyflag k; keybits := n; key := key k |}.

Definition set_key (k : key_context) (bs : list Z) : key_context :=
  {| keyflag := keyflag k; keybits := keybits k; key := bs |}.

Definition set_enc (c : AES_CTX) (k : key_context) : AES_CTX :=
  {| enc := k; dec := dec c |}.

Definition set_dec (c : AES_CTX) (k : key_context) : AES_CTX :=
  {| enc := enc c; dec := k |}.

(** The key record of a context for a direction. *)
Definition side (c : AES_CTX) (m : aes_mode) : key_context :=
  match m with AES_ENCRYPT => enc c | AES_DECRYPT => dec c end.

(** The [key] pointer handed to the key-setting functions.  It points
    either into a caller's buffer or, when the key is re-installed from
    the context, at the context's own key array, which the function may
    overwrite before it reads through the pointer. *)
Inductive key_ptr : Type :=
| Buf (bs : list Z)
| CtxEncKey
| CtxDecKey.

Definition load_key (c : AES_CTX) (p : key_ptr) : list Z :=
  match p with
  | Buf bs => bs
  | CtxEncKey => key (enc c)
  | CtxDecKey => key (dec c)
  end.

(** ** The engine *)

(** What the engine has been programmed with: direction, key size and
    the key bytes it read. *)
Definition key_schedule : Type := (aes_mode * AES_BITS * list Z)%type.

Inductive hw_event : Type :=
| EvLock
| EvUnlock
| EvEnable
| EvDisable
| EvSetKey (m : aes_mode) (b : AES_BITS) (k : list Z)
| EvCrypt (input : list Z).

(** The process-wide engine state: the reference count, the power state,
    the installed key schedule, and [log], the calls made so far, most
    recent first. *)
Record Engine : Type := mk_engine {
  refcount : nat;
  enabled : bool;
  sched : option key_schedule;
  log : list hw_event
}.

(** The engine at start-up. *)
Definition engine0 : Engine :=
  {| refcount := 0; enabled := false; sched := None; log := [] |}.

Definition emit (ev : hw_event) (e : Engine) : Engine :=
  {| refcount := refcount e; enabled := enabled e; sched := sched e;
     log := ev :: log e |}.

(** Modelled from the spec: the macros of [esp_crypto.h].  [AES_LOCK] and
    [AES_UNLOCK] take and release the engine lock; in this sequential
    model they only leave a mark in the log.  [AES_TAKE] increments the
    reference count, [AES_GIVE] decrements it, [AES_IS_USED] tests
    [refcount > 0]. *)
Definition AES_LOCK (e : Engine) : Engine := emit EvLock e.

(** Modelled from the spec: macro of [esp_crypto.h], releases the lock. *)
Definition AES_UNLOCK (e : Engine) : Engine := emit EvUnlock e.

(** Modelled from the spec: macro of [esp_crypto.h], "increments
    refcount". *)
Definition AES_TAKE (e : Engine) : Engine :=
  {| refcount := S (refcount e); enabled := enabled e; sched := sched e;
     log := log e |}.

(** Modelled from the spec: macro of [esp_crypto.h], "decrements
    refcount".  The count is a natural number; the properties below
    never decrement it at 0. *)
Definition AES_GIVE (e : Engine) : Engine :=
  {| refcount := Nat.pred (refcount e); enabled := enabled e; sched := sched e;
     log := log e |}.

(** Modelled from the spec: macro of [esp_crypto.h], [refcount > 0]. *)
Definition AES_IS_USED (e : Engine) : bool := (0 <? refcount e)%nat.

(** The block primitive of the engine: what a block transform computes
    under an installed encrypt or decrypt key, and with no key installed
    at all.  It is an external capability. *)
Class BlockPrimitive : Type := {
  encryptBlock : AES_BITS -> list Z -> list Z -> list Z;
  decryptBlock : AES_BITS -> list Z -> list Z -> list Z;
  idleBlock : list Z -> list Z
}.

(** Modelled from the spec: the ROM routines [ets_aes_enable],
    [ets_aes_disable], [ets_aes_setkey_enc], [ets_aes_setkey_dec] and
    [ets_aes_crypt].  Enable and disable switch the engine on and off
    (idempotent); installing a key replaces the one key schedule the
    engine holds; a block transform reads 16 bytes and computes the block
    primitive under the installed schedule. *)
Definition ets_aes_enable (e : Engine) : Engine :=
  emit EvEnable
    {| refcount := refcount e; enabled := true; sched := sched e;
       log := log e |}.

(** Modelled from the spec: the ROM routine [ets_aes_disable]. *)
Definition ets_aes_disable (e : Engine) : Engine :=
  emit EvDisable
    {| refcount := refcount e; enabled := false; sched := sched e;
       log := log e |}.

(** Modelled from the spec: [installKey(direction, bits, bytes)], the
    common part of the two ROM key routines.  The engine reads as many
    key bytes as the key size asks for. *)
Definition install (m : aes_mode) (k : list Z) (b : AES_BITS) (e : Engine)
  : Engine :=
  let kb := firstn (bits_bytes b) k in
  emit (EvSetKey m b kb)
    {| refcount := refcount e; enabled := enabled e; sched := Some (m, b, kb);
       log := log e |}.

(** Modelled from the spec: the ROM routine [ets_aes_setkey_enc]. *)
Definition ets_aes_setkey_enc (k : list Z) (b : AES_BITS) (e : Engine)
  : Engine := install AES_ENCRYPT k b e.

(** Modelled from the spec: the ROM routine [ets_aes_setkey_dec]. *)
Definition ets_aes_setkey_dec (k : list Z) (b : AES_BITS) (e : Engine)
  : Engine := install AES_DECRYPT k b e.

Section Program.

Context {bp : BlockPrimitive}.

(** Modelled from the spec: [transformBlock], what the engine computes
    on a block under the key schedule it holds. *)
Definition transform (s : option key_schedule) (blk : list Z) : list Z :=
  match s with
  | None => idleBlock blk
  | Some (AES_ENCRYPT, b, k) => encryptBlock b k blk
  | Some (AES_DECRYPT, b, k) => decryptBlock b k blk
  end.

(** Modelled from the spec: the ROM routine
    [ets_aes_crypt(input, output)]; it reads 16 bytes, and the 16 bytes
    of [output] are returned. *)
Definition ets_aes_crypt (input : list Z) (e : Engine) : list Z * Engine :=
  let blk := firstn 16 input in
  (transform (sched e) blk, emit (EvCrypt blk) e).

(** ** Context life cycle *)

(** [esp_aes_init]: returns the zeroed context. *)
Definition esp_aes_init (ctx : AES_CTX) (e : Engine) : AES_CTX * Engine :=
  let e := AES_LOCK e in
  let e := AES_TAKE e in
  let e := ets_aes_enable e in
  (ctx_zero, AES_UNLOCK e).

(** [esp_aes_free]: [None] is the [NULL] pointer; otherwise the zeroed
    context is returned. *)
Definition esp_aes_free (ctx : option AES_CTX) (e : Engine)
  : option AES_CTX * Engine :=
  match ctx with
  | None => (None, e)
  | Some _ =>
      let e := AES_LOCK e in
      let e := AES_GIVE e in
      let e := if negb (AES_IS_USED e) then ets_aes_disable e else e in
      (Some ctx_zero, AES_UNLOCK e)
  end.

(** ** Key schedule *)

(** The [switch (keybits)] of both key-setting functions. *)
Definition keybit_of (keybits : Z) : option AES_BITS :=
  if keybits =? 128 then Some AES128
  else if keybits =? 192 then Some AES192
  else if keybits =? 256 then Some AES256
  else None.

(** [uint16_t keybyte = keybits / 8]. *)
Definition keybyte_of (keybits : Z) : nat :=
  Z.to_nat ((keybits / 8) mod 65536).

Definition esp_aes_setkey_enc (ctx : AES_CTX) (k : key_ptr) (keybits : Z)
    (e : Engine) : aes_ret * AES_CTX * Engine :=
  let keybyte := keybyte_of keybits in
  match keybit_of keybits with
  | None => (ERR_AES_INVALID_KEY_LENGTH, ctx, e)
  | Some keybit =>
      if negb (keyflag (enc ctx)) then
        let ctx := set_enc ctx (set_keyflag (enc ctx) true) in
        let ctx := set_enc ctx (set_keybits (enc ctx) keybits) in
        let ctx := set_enc ctx (set_key (enc ctx) (zeros KEY_SIZE)) in
        let ctx :=
          set_enc ctx
            (set_key (enc ctx)
               (memcpy (key (enc ctx)) (load_key ctx k) keybyte))
        in
        (OK, ctx, e)
      else
        (OK, ctx, ets_aes_setkey_enc (load_key ctx k) keybit e)
  end.

Definition esp_aes_setkey_dec (ctx : AES_CTX) (k : key_ptr) (keybits : Z)
    (e : Engine) : aes_ret * AES_CTX * Engine :=
  let keybyte := keybyte_of keybits in
  match keybit_of keybits with
  | None => (ERR_AES_INVALID_KEY_LENGTH, ctx, e)
  | Some keybit =>
      if negb (keyflag (dec ctx)) then
        let ctx := set_dec ctx (set_keyflag (dec ctx) true) in
        let ctx := set_dec ctx (set_keybits (dec ctx) keybits) in
        let ctx := set_dec ctx (set_key (dec ctx) (zeros KEY_SIZE)) in
        let ctx :=
          set_dec ctx
            (set_key (dec ctx)
               (memcpy (key (dec ctx)) (load_key ctx k) keybyte))
        in
        (OK, ctx, e)
      else
        (OK, ctx, ets_aes_setkey_dec (load_key ctx k) keybit e)
  end.

(** The public [setKey(direction, bits, bytes)] of a caller's buffer. *)
Definition setKey (m : aes_mode) (ctx : AES_CTX) (k : list Z) (keybits : Z)
    (e : Engine) : aes_ret * AES_CTX * Engine :=
  match m with
  | AES_ENCRYPT => esp_aes_setkey_enc ctx (Buf k) keybits e
  | AES_DECRYPT => esp_aes_setkey_dec ctx (Buf k) keybits e
  end.

(** ** Single block *)

(** Re-installs the context's recorded key for the direction; the result
    of the key-setting call is dropped. *)
Definition esp_aes_process_enable (ctx : AES_CTX) (mode : aes_mode)
    (e : Engine) : AES_CTX * Engine :=
  match mode with
  | AES_ENCRYPT =>
      let '(_, ctx, e) :=
        esp_aes_setkey_enc ctx CtxEncKey (keybits (enc ctx)) e in
      (ctx, e)
  | AES_DECRYPT =>
      let '(_, ctx, e) :=
        esp_aes_setkey_dec ctx CtxDecKey (keybits (dec ctx)) e in
      (ctx, e)
  end.

Definition esp_aes_process_disable (ctx : AES_CTX) (mode : aes_mode)
    (e : Engine) : Engine := e.

Definition esp_aes_encrypt (ctx : AES_CTX) (input : list Z) (e : Engine)
  : list Z * Engine := ets_aes_crypt input e.

Definition esp_aes_decrypt (ctx : AES_CTX) (input : list Z) (e : Engine)
  : list Z * Engine := ets_aes_crypt input e.

(** [esp_aes_crypt_ecb]: the return value, the 16 bytes written to
    [output], the context and the engine. *)
Definition esp_aes_crypt_ecb (ctx : AES_CTX) (mode : aes_mode)
    (input : list Z) (e : Engine) : aes_ret * list Z * AES_CTX * Engine :=
  let e := AES_LOCK e in
  let '(ctx, e) := esp_aes_process_enable ctx mode e in
  let '(out, e) :=
    match mode with
    | AES_ENCRYPT => esp_aes_encrypt ctx input e
    | AES_DECRYPT => esp_aes_decrypt ctx input e
    end in
  let e := esp_aes_process_disable ctx mode e in
  let e := AES_UNLOCK e in
  (OK, out, ctx, e).

(** ** CBC *)

(** [for (i = 0; i < 16; i++) out[i] = (unsigned char)(a[i] ^ b[i])]. *)
Definition xor_block (a b : list Z) : list Z :=
  map (fun i => xor8 (rd a i) (rd b i)) (seq 0 16).

(** The decrypt loop, run [length / 16] times; returns the bytes written
    to [output], in order. *)
Fixpoint cbc_decrypt_loop (nblk : nat) (ctx : AES_CTX) (e : Engine)
    (iv input : list Z) : AES_CTX * Engine * list Z * list Z :=
  match nblk with
  | O => (ctx, e, iv, [])
  | S nblk' =>
      let temp := firstn 16 input in
      let '(_, out, ctx, e) := esp_aes_crypt_ecb ctx AES_DECRYPT input e in
      let out := xor_block out iv in
      let iv := memcpy iv temp 16 in
      let '(ctx, e, iv, rest) :=
        cbc_decrypt_loop nblk' ctx e iv (skipn 16 input) in
      (ctx, e, iv, out ++ rest)
  end.

Fixpoint cbc_encrypt_loop (nblk : nat) (ctx : AES_CTX) (e : Engine)
    (iv input : list Z) : AES_CTX * Engine * list Z * list Z :=
  match nblk with
  | O => (ctx, e, iv, [])
  | S nblk' =>
      let out := xor_block input iv in
      let '(_, out, ctx, e) := esp_aes_crypt_ecb ctx AES_ENCRYPT out e in
      let iv := memcpy iv out 16 in
      let '(ctx, e, iv, rest) :=
        cbc_encrypt_loop nblk' ctx e iv (skipn 16 input) in
      (ctx, e, iv, out ++ rest)
  end.

(** [esp_aes_crypt_cbc]: the return value, the context, the engine, the
    IV and the output buffer after the call. *)
Definition esp_aes_crypt_cbc (ctx : AES_CTX) (mode : aes_mode)
    (length : nat) (iv input output : list Z) (e : Engine)
  : aes_ret * AES_CTX * Engine * list Z * list Z :=
  if negb (length mod 16 =? 0)%nat then
    (ERR_AES_INVALID_INPUT_LENGTH, ctx, e, iv, output)
  else
    let '(ctx, e, iv, written) :=
      match mode with
      | AES_DECRYPT => cbc_decrypt_loop (length / 16) ctx e iv input
      | AES_ENCRYPT => cbc_encrypt_loop (length / 16) ctx e iv input
      end in
    (OK, ctx, e, iv, written ++ skipn length output).

(** ** CFB-128 *)

(** [n = (n + 1) & 0x0F] on a [size_t]; 16 divides the word size, so the
    wrap of [n + 1] does not show. *)
Definition next_off (n : Z) : Z := Z.land (n + 1) 15.

(** [if (n == 0) esp_aes_crypt_ecb(ctx, AES_ENCRYPT, iv, iv)]. *)
Definition refresh_iv (ctx : AES_CTX) (e : Engine) (n : Z) (iv : list Z)
  : AES_CTX * Engine * list Z :=
  if n =? 0 then
    let '(_, out, ctx, e) := esp_aes_crypt_ecb ctx AES_ENCRYPT iv e in
    (ctx, e, memcpy iv out 16)
  else (ctx, e, iv).

Fixpoint cfb128_decrypt_loop (length : nat) (ctx : AES_CTX) (e : Engine)
    (n : Z) (iv input : list Z)
  : AES_CTX * Engine * Z * list Z * list Z :=
  match length with
  | O => (ctx, e, n, iv, [])
  | S length' =>
      let '(ctx, e, iv) := refresh_iv ctx e n iv in
      let c := rd input 0 in
      let o := xor8 c (rd iv (Z.to_nat n)) in
      let iv := upd iv (Z.to_nat n) (u8 c) in
      let n := next_off n in
      let '(ctx, e, n, iv, rest) :=
        cfb128_decrypt_loop length' ctx e n iv (skipn 1 input) in
      (ctx, e, n, iv, o :: rest)
  end.

Fixpoint cfb128_encrypt_loop (length : nat) (ctx : AES_CTX) (e : Engine)
    (n : Z) (iv input : list Z)
  : AES_CTX * Engine * Z * list Z * list Z :=
  match length with
  | O => (ctx, e, n, iv, [])
  | S length' =>
      let '(ctx, e, iv) := refresh_iv ctx e n iv in
      let o := xor8 (rd iv (Z.to_nat n)) (rd input 0) in
      let iv := upd iv (Z.to_nat n) o in
      let n := next_off n in
      let '(ctx, e, n, iv, rest) :=
        cfb128_encrypt_loop length' ctx e n iv (skipn 1 input) in
      (ctx, e, n, iv, o :: rest)
  end.

(** [esp_aes_crypt_cfb128]: the return value, the context, the engine,
    [*iv_off], the IV and the output buffer after the call. *)
Definition esp_aes_crypt_cfb128 (ctx : AES_CTX) (mode : aes_mode)
    (length : nat) (iv_off : Z) (iv input output : list Z) (e : Engine)
  : aes_ret * AES_CTX * Engine * Z * list Z * list Z :=
  let n := iv_off in
  let '(ctx, e, n, iv, written) :=
    match mode with
    | AES_DECRYPT => cfb128_decrypt_loop length ctx e n iv input
    | AES_ENCRYPT => cfb128_encrypt_loop length ctx e n iv input
    end in
  (OK, ctx, e, n, iv, written ++ skipn length output).

(** ** CFB-8 *)

(** The loop of [esp_aes_crypt_cfb8].  [ov] is the 17-byte scratch
    register: the old IV followed by the byte fed back. *)
Fixpoint cfb8_loop (length : nat) (ctx : AES_CTX) (mode : aes_mode)
    (e : Engine) (iv input : list Z)
  : AES_CTX * Engine * list Z * list Z :=
  match length with
  | O => (ctx, e, iv, [])
  | S length' =>
      let ov := firstn 16 iv in
      let '(_, out, ctx, e) := esp_aes_crypt_ecb ctx AES_ENCRYPT iv e in
      let iv := memcpy iv out 16 in
      let c := xor8 (rd iv 0) (rd input 0) in
      let ov16 :=
        match mode with
        | AES_DECRYPT => rd input 0
        | AES_ENCRYPT => c
        end in
      let iv := memcpy iv (skipn 1 (ov ++ [ov16])) 16 in
      let '(ctx, e, iv, rest) :=
        cfb8_loop length' ctx mode e iv (skipn 1 input) in
      (ctx, e, iv, c :: rest)
  end.

Definition esp_aes_crypt_cfb8 (ctx : AES_CTX) (mode : aes_mode)
    (length : nat) (iv input output : list Z) (e : Engine)
  : aes_ret * AES_CTX * Engine * list Z * list Z :=
  let '(ctx, e, iv, written) := cfb8_loop length ctx mode e iv input in
  (OK, ctx, e, iv, written ++ skipn length output).

(** ** CTR *)

(** [for (i = 16; i > 0; i--) if (++nonce_counter[i - 1] != 0) break;] *)
Fixpoint counter_loop (i : nat) (nonce_counter : list Z) : list Z :=
  match i with
  | O => nonce_counter
  | S i' =>
      let b := u8 (rd nonce_counter i' + 1) in
      let nonce_counter := upd nonce_counter i' b in
      if negb (b =? 0) then nonce_counter
      else counter_loop i' nonce_counter
  end.

Definition counter_incr (nonce_counter : list Z) : list Z :=
  counter_loop 16 nonce_counter.

(** The body of [if (n == 0) { ... }]. *)
Definition refresh_stream (ctx : AES_CTX) (e : Engine) (n : Z)
    (nonce_counter stream_block : list Z)
  : AES_CTX * Engine * list Z * list Z :=
  if n =? 0 then
    let '(_, out, ctx, e) :=
      esp_aes_crypt_ecb ctx AES_ENCRYPT nonce_counter e in
    (ctx, e, counter_incr nonce_counter, memcpy stream_block out 16)
  else (ctx, e, nonce_counter, stream_block).

Fixpoint ctr_loop (length : nat) (ctx : AES_CTX) (e : Engine) (n : Z)
    (nonce_counter stream_block input : list Z)
  : AES_CTX * Engine * Z * list Z * list Z * list Z :=
  match length with
  | O => (ctx, e, n, nonce_counter, stream_block, [])
  | S length' =>
      let '(ctx, e, nonce_counter, stream_block) :=
        refresh_stream ctx e n nonce_counter stream_block in
      let c := rd input 0 in
      let o := xor8 c (rd stream_block (Z.to_nat n)) in
      let n := next_off n in
      let '(ctx, e, n, nonce_counter, stream_block, rest) :=
        ctr_loop length' ctx e n nonce_counter stream_block
          (skipn 1 input) in
      (ctx, e, n, nonce_counter, stream_block, o :: rest)
  end.

(** [esp_aes_crypt_ctr]: the return value, the context, the engine,
    [*nc_off], the counter, the stream block and the output buffer after
    the call. *)
Definition esp_aes_crypt_ctr (ctx : AES_CTX) (length : nat) (nc_off : Z)
    (nonce_counter stream_block input output : list Z) (e : Engine)
  : aes_ret * AES_CTX * Engine * Z * list Z * list Z * list Z :=
  let n := nc_off in
  let '(ctx, e, n, nonce_counter, stream_block, written) :=
    ctr_loop length ctx e n nonce_counter stream_block input in
  (OK, ctx, e, n, nonce_counter, stream_block,
   written ++ skipn length output).

End Program.

(** ** Vocabulary of the properties *)

(** The key sizes the key-setting functions accept. *)
Definition valid_keybits (n : Z) : Prop := n = 128 \/ n = 192 \/ n = 256.

(** A direction's key is set: the flag is up and the recorded size is one
    of the three valid ones, as the key-setting functions leave it. *)
Definition key_set (k : key_context) : Prop :=
  keyflag k = true /\ valid_keybits (keybits k).

(** A direction's key was never set: the record is as [esp_aes_init]
    left it, flag down and no valid size. *)
Definition key_unset (k : key_context) : Prop :=
  keyflag k = false /\ keybit_of (keybits k) = None.

(** A 16-byte block. *)
Definition block (b : list Z) : Prop := length b = 16%nat /\ bytes b.

(** A key record in one of the two states the functions of this file
    leave it in. *)
Definition key_wf (k : key_context) : Prop := key_set k \/ key_unset k.

(** The block primitive yields 16 bytes, whatever the engine holds. *)
Definition sixteen_out (bp : BlockPrimitive) : Prop :=
  forall s blk, length (transform s blk) = 16%nat.

(** [decryptBlock(key, encryptBlock(key, b)) == b] for all blocks. *)
Definition dec_inverts_enc (bp : BlockPrimitive) : Prop :=
  forall bits k b, block b -> decryptBlock bits k (encryptBlock bits k b) = b.

(** The value of a byte string read as a big-endian number. *)
Definition be_val (l : list Z) : Z :=
  fold_left (fun acc b => acc * 256 + b) l 0.

(** The [n] bytes of the big-endian representation of [v]. *)
Fixpoint be_bytes (n : nat) (v : Z) : list Z :=
  match n with
  | O => []
  | S n' => be_bytes n' (v / 256) ++ [v mod 256]
  end.

(** The key schedule a context has on record for a direction: what
    [esp_aes_process_enable] puts on the engine when the key is set. *)
Definition recorded (c : AES_CTX) (m : aes_mode) : option key_schedule :=
  match keybit_of (keybits (side c m)) with
  | Some b => Some (m, b, firstn (bits_bytes b) (key (side c m)))
  | None => None
  end.

(** The key schedule a single-block call for a direction runs under:
    the context's recorded key when its flag is up, and otherwise
    whatever the engine already holds. *)
Definition effective (c : AES_CTX) (m : aes_mode) (e : Engine)
  : option key_schedule :=
  if keyflag (side c m) then recorded c m else sched e.

Section Reference.

Context {bp : BlockPrimitive}.

(** The block transform under the context's own key for a direction. *)
Definition ecb_of (c : AES_CTX) (m : aes_mode) (blk : list Z) : list Z :=
  transform (recorded c m) blk.

(** CTR as the design document words it, over a block encryption [E]:
    at offset 0 the stream block becomes [E nonceCounter] and the counter
    is incremented as a 128-bit big-endian number; every byte is XORed
    with [streamBlock[offset]] and the offset advances modulo 16. *)
Definition be_incr128 (nc : list Z) : list Z :=
  be_bytes 16 ((be_val nc + 1) mod 2 ^ 128).

Fixpoint ctr_reference (E : list Z -> list Z) (input : list Z) (n : Z)
    (nc sb : list Z) : Z * list Z * list Z * list Z :=
  match input with
  | [] => (n, nc, sb, [])
  | x :: input' =>
      let sb := if n =? 0 then E nc else sb in
      let nc := if n =? 0 then be_incr128 nc else nc in
      let o := xor8 x (rd sb (Z.to_nat n)) in
      let '(n', nc', sb', rest) :=
        ctr_reference E input' ((n + 1) mod 16) nc sb in
      (n', nc', sb', o :: rest)
  end.

End Reference.

(** *** Life-cycle traces *)

Inductive life_op : Type :=
| OpInit (ctx : AES_CTX)
| OpFree (ctx : option AES_CTX).

Definition life_step (e : Engine) (op : life_op) : Engine :=
  match op with
  | OpInit c => snd (esp_aes_init c e)
  | OpFree c => snd (esp_aes_free c e)
  end.

Definition life_run (ops : list life_op) (e : Engine) : Engine :=
  fold_left life_step ops e.

(** The reference count before the first operation and after each one. *)
Fixpoint refcount_trace (ops : list life_op) (e : Engine) : list nat :=
  match ops with
  | [] => [refcount e]
  | op :: ops' => refcount e :: refcount_trace ops' (life_step e op)
  end.

(** Number of steps of a trace that go from 0 to a positive count. *)
Fixpoint rising_edges (t : list nat) : nat :=
  match t with
  | a :: ((b :: _) as t') =>
      ((if (a =? 0) && (0 <? b) then 1 else 0) + rising_edges t')%nat
  | _ => 0%nat
  end.

(** Number of steps of a trace that go from a positive count to 0. *)
Fixpoint falling_edges (t : list nat) : nat :=
  match t with
  | a :: ((b :: _) as t') =>
      ((if (0 <? a) && (b =? 0) then 1 else 0) + falling_edges t')%nat
  | _ => 0%nat
  end.

Definition is_enable (ev : hw_event) : bool :=
  match ev with EvEnable => true | _ => false end.

Definition is_disable (ev : hw_event) : bool :=
  match ev with EvDisable => true | _ => false end.

Definition enable_calls (e : Engine) : nat :=
  length (filter is_enable (log e)).

Definition disable_calls (e : Engine) : nat :=
  length (filter is_disable (log e)).

Definition is_init (op : life_op) : bool :=
  match op with OpInit _ => true | OpFree _ => false end.

Definition init_calls (ops : list life_op) : nat :=
  length (filter is_init ops).

(** Every free of a non-null context finds a live reference: with [n]
    references held, the operations never release more than were taken. *)
Fixpoint paired (n : nat) (ops : list life_op) : bool :=
  match ops with
  | [] => true
  | OpInit _ :: ops' => paired (S n) ops'
  | OpFree None :: ops' => paired n ops'
  | OpFree (Some _) :: ops' => (0 <? n)%nat && paired (Nat.pred n) ops'
  end.

(** *** Vocabulary of the further properties *)

(** The other direction. *)
Definition opposite (m : aes_mode) : aes_mode :=
  match m with AES_ENCRYPT => AES_DECRYPT | AES_DECRYPT => AES_ENCRYPT end.

(** Both key records of a context are in a state the functions of this
    file leave them in. *)
Definition ctx_wf (c : AES_CTX) : Prop := key_wf (enc c) /\ key_wf (dec c).

(** Where a run of engine events stands with respect to the lock:
    outside any lock span, inside one with nothing done yet, inside one
    with a key installed, inside one with the block transform done. *)
Inductive span_state : Type := Outside | Held | Keyed | Done.

(** One event of a well-formed lock span: the lock is taken from
    outside; a key is installed at most once, under the lock and before
    the transform; the transform runs under the lock; the lock is
    released after the transform, which completes one span.  Any other
    event, or any of these out of place, is refused. *)
Definition span_step (st : span_state) (ev : hw_event)
  : option (span_state * nat) :=
  match st, ev with
  | Outside, EvLock => Some (Held, 0%nat)
  | Held, EvSetKey _ _ _ => Some (Keyed, 0%nat)
  | Held, EvCrypt _ => Some (Done, 0%nat)
  | Keyed, EvCrypt _ => Some (Done, 0%nat)
  | Done, EvUnlock => Some (Outside, 1%nat)
  | _, _ => None
  end.

(** Runs over events in the order they happened, from state [st] with
    [k] spans completed. *)
Fixpoint span_scan (st : span_state) (k : nat) (evs : list hw_event)
  : option (span_state * nat) :=
  match evs with
  | [] => Some (st, k)
  | ev :: evs' =>
      match span_step st ev with
      | Some (st', inc) => span_scan st' (k + inc) evs'
      | None => None
      end
  end.

(** Between [e] and [e'] the engine saw exactly [k] complete lock spans
    and nothing outside them: the events added to the log, read in the
    order they happened, are [k] times lock, optional key install, one
    block transform, unlock.  Reference count and power state did not
    move. *)
Definition spans (e e' : Engine) (k : nat) : Prop :=
  (exists added,
      log e' = added ++ log e /\
      span_scan Outside 0 (rev added) = Some (Outside, k)) /\
  refcount e' = refcount e /\ enabled e' = enabled e.

(** How many of the [len] positions that follow offset [off] fall on
    offset 0: the number of times a stream call refreshes its block. *)
Definition refreshes (off : Z) (len : nat) : nat :=
  Z.to_nat ((off + Z.of_nat len + 15) / 16 - (off + 15) / 16).

Definition is_live_free (op : life_op) : bool :=
  match op with OpFree (Some _) => true | _ => false end.

Definition free_calls (ops : list life_op) : nat :=
  length (filter is_live_free ops).

(** *** A small block primitive to run the functions on

    Encryption adds the key to the block bytewise, decryption subtracts
    it; with no key installed the 16 bytes go through unchanged. *)
Definition toy_add (k blk : list Z) : list Z :=
  map (fun i => u8 (rd blk i + rd k i)) (seq 0 16).

Definition toy_sub (k blk : list Z) : list Z :=
  map (fun i => u8 (rd blk i - rd k i)) (seq 0 16).

Definition toy : BlockPrimitive :=
  {| encryptBlock := fun _ k blk => toy_add k blk;
     decryptBlock := fun _ k blk => toy_sub k blk;
     idleBlock := fun blk => map (fun i => rd blk i) (seq 0 16) |}.

(** A context holding a 128-bit key of sixteen [x] for encryption and of
    sixteen [y] for decryption. *)
Definition keyed (x y : Z) : AES_CTX :=
  {| enc := {| keyflag := true; keybits := 128;
               key := repeat x 16 ++ zeros 16 |};
     dec := {| keyflag := true; keybits := 128;
               key := repeat y 16 ++ zeros 16 |} |}.

(** * Properties *)

(** ** Bytes *)

Lemma u8_ones (x : Z) : u8 x = Z.land x (Z.ones 8).
Proof.
  unfold u8. rewrite Z.land_ones by lia. reflexivity.
Qed.

Lemma u8_byte (x : Z) : is_byte (u8 x).
Proof.
  unfold is_byte, u8. apply Z.mod_pos_bound. lia.
Qed.

Lemma u8_small (x : Z) : is_byte x -> u8 x = x.
Proof.
  unfold is_byte, u8. intros H. apply Z.mod_small. exact H.
Qed.

Ltac bitwise :=
  apply Z.bits_inj'; intros ? ?;
  repeat (rewrite ?Z.land_spec, ?Z.lxor_spec);
  repeat match goal with
         | |- context [Z.testbit ?a ?n] => destruct (Z.testbit a n)
         end; reflexivity.

Lemma xor8_cancel_r (p v : Z) : is_byte p -> xor8 (xor8 p v) v = p.
Proof.
  intros Hp. rewrite <- (u8_small p Hp) at 2.
  unfold xor8. rewrite !u8_ones. bitwise.
Qed.

Lemma xor8_cancel_l (p v : Z) : is_byte p -> xor8 v (xor8 v p) = p.
Proof.
  intros Hp. rewrite <- (u8_small p Hp) at 2.
  unfold xor8. rewrite !u8_ones. bitwise.
Qed.

Lemma bytes_app (a b : list Z) : bytes (a ++ b) <-> bytes a /\ bytes b.
Proof.
  unfold bytes. apply Forall_app.
Qed.

(** ** Key schedule *)

Lemma keybit_of_valid (n : Z) :
  valid_keybits n -> exists b, keybit_of n = Some b /\
                               keybyte_of n = bits_bytes b.
Proof.
  intros [H | [H | H]]; subst n.
  - exists AES128. split; reflexivity.
  - exists AES192. split; reflexivity.
  - exists AES256. split; reflexivity.
Qed.

Lemma keybit_of_some (n : Z) (b : AES_BITS) :
  keybit_of n = Some b -> valid_keybits n.
Proof.
  unfold keybit_of, valid_keybits.
  destruct (Z.eqb_spec n 128); [auto |].
  destruct (Z.eqb_spec n 192); [auto |].
  destruct (Z.eqb_spec n 256); [auto | discriminate].
Qed.

(** C1, as the code has it: the first [setKey] for a direction records
    the size and the bytes (zero-padded to the key array) and raises the
    flag; a second [setKey] for that direction returns success too but
    leaves the context as the first call made it, and programs the
    engine with the second key instead.  The first call wins for the
    recorded content. *)
Theorem setKey_first_call_recorded
    (m : aes_mode) (ctx : AES_CTX) (k1 k2 : list Z) (bits1 bits2 : Z)
    (b2 : AES_BITS) (e : Engine) :
  keyflag (side ctx m) = false ->
  valid_keybits bits1 ->
  keybit_of bits2 = Some b2 ->
  let '(r1, ctx1, e1) := setKey m ctx k1 bits1 e in
  let '(r2, ctx2, e2) := setKey m ctx1 k2 bits2 e1 in
  r1 = OK /\ r2 = OK /\
  side ctx1 m =
    {| keyflag := true; keybits := bits1;
       key := firstn (keybyte_of bits1) k1
              ++ zeros (KEY_SIZE - keybyte_of bits1) |} /\
  e1 = e /\
  ctx2 = ctx1 /\
  sched e2 = Some (m, b2, firstn (bits_bytes b2) k2).
Proof.
  intros Hflag Hv1 Hb2.
  assert (Hpad : skipn (keybyte_of bits1) (zeros KEY_SIZE)
                 = zeros (KEY_SIZE - keybyte_of bits1)).
  { destruct Hv1 as [H | [H | H]]; subst bits1; reflexivity. }
  destruct (keybit_of_valid bits1 Hv1) as [b1 [Hb1 _]].
  destruct m; simpl in Hflag |- *;
    unfold esp_aes_setkey_enc, esp_aes_setkey_dec;
    rewrite Hb1, Hflag; simpl; rewrite Hb2; simpl;
    unfold memcpy; rewrite Hpad; repeat split; reflexivity.
Qed.

Lemma setKey_first_call_recorded_witness :
  let '(r1, ctx1, e1) :=
    setKey AES_ENCRYPT ctx_zero (repeat 1 16) 128 engine0 in
  let '(r2, ctx2, e2) := setKey AES_ENCRYPT ctx1 (repeat 2 32) 256 e1 in
  r1 = OK /\ r2 = OK /\
  side ctx1 AES_ENCRYPT =
    {| keyflag := true; keybits := 128;
       key := firstn (keybyte_of 128) (repeat 1 16)
              ++ zeros (KEY_SIZE - keybyte_of 128) |} /\
  e1 = engine0 /\
  ctx2 = ctx1 /\
  sched e2
  = Some (AES_ENCRYPT, AES256, firstn (bits_bytes AES256) (repeat 2 32)).
Proof.
  apply (setKey_first_call_recorded AES_ENCRYPT ctx_zero (repeat 1 16)
           (repeat 2 32) 128 256 AES256 engine0).
  - reflexivity.
  - left. reflexivity.
  - reflexivity.
Defined.

(** C1 as stated fails: after [setKey(enc, 128, k1)] and then
    [setKey(enc, 256, k2)] on a fresh context the recorded bytes are not
    [k2] and the recorded size is not 256. *)
Lemma setKey_last_call_not_recorded :
  let k1 := repeat 1 16 in
  let k2 := repeat 2 32 in
  let '(_, ctx1, e1) := setKey AES_ENCRYPT ctx_zero k1 128 engine0 in
  let '(_, ctx2, _) := setKey AES_ENCRYPT ctx1 k2 256 e1 in
  key (enc ctx2) <> k2 /\ keybits (enc ctx2) <> 256 /\
  key (enc ctx2) = k1 ++ zeros 16 /\ keybits (enc ctx2) = 128.
Proof.
  vm_compute. repeat split; discriminate.
Qed.

(** ** Context life cycle *)

Lemma falling_edges_cons (a : nat) (ops : list life_op) (e : Engine) :
  falling_edges (a :: refcount_trace ops e)
  = ((if (0 <? a)%nat && (refcount e =? 0)%nat then 1 else 0)
     + falling_edges (refcount_trace ops e))%nat.
Proof.
  destruct ops; reflexivity.
Qed.

Lemma init_effect (c : AES_CTX) (e : Engine) :
  let e' := snd (esp_aes_init c e) in
  refcount e' = S (refcount e) /\ enabled e' = true /\
  enable_calls e' = S (enable_calls e) /\
  disable_calls e' = disable_calls e.
Proof.
  repeat split.
Qed.

Lemma free_effect (c : AES_CTX) (e : Engine) :
  let e' := snd (esp_aes_free (Some c) e) in
  refcount e' = Nat.pred (refcount e) /\
  enabled e'
  = (if (Nat.pred (refcount e) =? 0)%nat then false else enabled e) /\
  enable_calls e' = enable_calls e /\
  disable_calls e'
  = ((if (Nat.pred (refcount e) =? 0)%nat then 1 else 0) + disable_calls e)%nat.
Proof.
  destruct e as [s en sc lg]. unfold esp_aes_free, AES_IS_USED. simpl.
  destruct s as [| [| n]]; simpl; repeat split.
Qed.

Lemma life_run_counts (ops : list life_op) :
  forall e,
    paired (refcount e) ops = true ->
    enabled e = (0 <? refcount e)%nat ->
    enable_calls (life_run ops e) = (enable_calls e + init_calls ops)%nat /\
    disable_calls (life_run ops e)
    = (disable_calls e + falling_edges (refcount_trace ops e))%nat /\
    enabled (life_run ops e) = (0 <? refcount (life_run ops e))%nat.
Proof.
  induction ops as [| op ops IH]; intros e Hp Hinv.
  - simpl. unfold init_calls. simpl. repeat split; auto; lia.
  - change (life_run (op :: ops) e) with (life_run ops (life_step e op)).
    change (refcount_trace (op :: ops) e)
      with (refcount e :: refcount_trace ops (life_step e op)).
    rewrite falling_edges_cons.
    destruct op as [c | [c |]].
    + (* init *)
      destruct (init_effect c e) as (Hs & Hen & Hec & Hdc).
      simpl in Hp.
      change (life_step e (OpInit c)) with (snd (esp_aes_init c e)).
      destruct (IH (snd (esp_aes_init c e))) as (IH1 & IH2 & IH3).
      * rewrite Hs. exact Hp.
      * rewrite Hs, Hen. reflexivity.
      * rewrite IH1, IH2, Hec, Hdc, Hs.
        unfold init_calls. simpl.
        rewrite Bool.andb_false_r. repeat split; auto; lia.
    + (* free of a live context *)
      destruct (free_effect c e) as (Hs & Hen & Hec & Hdc).
      simpl in Hp. apply Bool.andb_true_iff in Hp. destruct Hp as [Hpos Hp].
      change (life_step e (OpFree (Some c)))
        with (snd (esp_aes_free (Some c) e)).
      destruct (IH (snd (esp_aes_free (Some c) e))) as (IH1 & IH2 & IH3).
      * rewrite Hs. exact Hp.
      * rewrite Hs, Hen, Hinv.
        destruct (refcount e) as [| [| n]]; reflexivity.
      * rewrite IH1, IH2, Hec, Hdc, Hs, Hpos.
        unfold init_calls. simpl.
        repeat split; auto; lia.
    + (* free(NULL) *)
      simpl in Hp. change (life_step e (OpFree None)) with e.
      destruct (IH e Hp Hinv) as (IH1 & IH2 & IH3).
      rewrite IH1, IH2. unfold init_calls. simpl.
      replace ((0 <? refcount e)%nat && (refcount e =? 0)%nat) with false
        by (destruct (refcount e); reflexivity).
      repeat split; auto.
Qed.

(** C3, as the code has it: over every sequence of inits and frees in
    which each free of a non-null context releases a live reference,
    started on the idle engine, [ets_aes_enable] is called once per
    [esp_aes_init] (whether or not another context is live),
    [ets_aes_disable] is called exactly once per transition of the
    reference count from positive to 0, and the engine is enabled exactly
    when the reference count is positive. *)
Theorem lifecycle_enable_per_init (ops : list life_op) :
  paired 0 ops = true ->
  enable_calls (life_run ops engine0) = init_calls ops /\
  disable_calls (life_run ops engine0)
  = falling_edges (refcount_trace ops engine0) /\
  enabled (life_run ops engine0) = (0 <? refcount (life_run ops engine0))%nat.
Proof.
  intros Hp.
  destruct (life_run_counts ops engine0 Hp eq_refl) as (H1 & H2 & H3).
  repeat split; assumption.
Qed.

Lemma lifecycle_enable_per_init_witness :
  let ops := [OpInit ctx_zero; OpInit ctx_zero; OpFree (Some ctx_zero);
              OpFree None; OpFree (Some ctx_zero)] in
  enable_calls (life_run ops engine0) = init_calls ops /\
  disable_calls (life_run ops engine0)
  = falling_edges (refcount_trace ops engine0) /\
  enabled (life_run ops engine0) = (0 <? refcount (life_run ops engine0))%nat.
Proof.
  apply (lifecycle_enable_per_init
           [OpInit ctx_zero; OpInit ctx_zero; OpFree (Some ctx_zero);
            OpFree None; OpFree (Some ctx_zero)]).
  reflexivity.
Defined.

(** C3 as stated fails: two inits in a row make one transition of the
    reference count from 0 to 1, the first context is still live at the
    second init, and yet [ets_aes_enable] has been called twice. *)
Lemma second_init_enables_again :
  let ops := [OpInit ctx_zero; OpInit ctx_zero] in
  refcount_trace ops engine0 = [0; 1; 2]%nat /\
  rising_edges (refcount_trace ops engine0) = 1%nat /\
  enable_calls (life_run ops engine0) = 2%nat /\
  enable_calls (life_run ops engine0)
  <> rising_edges (refcount_trace ops engine0).
Proof.
  vm_compute. repeat split; discriminate.
Qed.

(** C10: [esp_aes_free(NULL)] changes nothing: no context is written,
    and the engine (reference count, power state, key schedule and the
    log of calls) is exactly as before. *)
Theorem free_null_noop (e : Engine) :
  esp_aes_free None e = (None, e) /\
  refcount (snd (esp_aes_free None e)) = refcount e /\
  enabled (snd (esp_aes_free None e)) = enabled e /\
  log (snd (esp_aes_free None e)) = log e.
Proof.
  repeat split.
Qed.

(** ** Single block *)

Section BlockFacts.

Context {bp : BlockPrimitive}.

Lemma process_enable_keyed (ctx : AES_CTX) (m : aes_mode) (b : AES_BITS)
    (e : Engine) :
  keyflag (side ctx m) = true ->
  keybit_of (keybits (side ctx m)) = Some b ->
  esp_aes_process_enable ctx m e
  = (ctx, install m (key (side ctx m)) b e).
Proof.
  intros Hf Hb. destruct m; simpl in Hf, Hb;
    unfold esp_aes_process_enable, esp_aes_setkey_enc, esp_aes_setkey_dec;
    rewrite Hb, Hf; reflexivity.
Qed.

Lemma process_enable_unset (ctx : AES_CTX) (m : aes_mode) (e : Engine) :
  keybit_of (keybits (side ctx m)) = None ->
  esp_aes_process_enable ctx m e = (ctx, e).
Proof.
  intros Hb. destruct m; simpl in Hb;
    unfold esp_aes_process_enable, esp_aes_setkey_enc, esp_aes_setkey_dec;
    rewrite Hb; reflexivity.
Qed.

(** With the key of the direction set, a single-block call computes the
    block primitive under that key, whatever the engine held before, and
    leaves the context as it was. *)
Lemma ecb_keyed (ctx : AES_CTX) (m : aes_mode) (b : AES_BITS)
    (input : list Z) (e : Engine) :
  keyflag (side ctx m) = true ->
  keybit_of (keybits (side ctx m)) = Some b ->
  exists e',
    esp_aes_crypt_ecb ctx m input e
    = (OK,
       transform (Some (m, b, firstn (bits_bytes b) (key (side ctx m))))
         (firstn 16 input),
       ctx, e').
Proof.
  intros Hf Hb. unfold esp_aes_crypt_ecb.
  rewrite (process_enable_keyed ctx m b _ Hf Hb).
  destruct m; eexists; reflexivity.
Qed.

Lemma ecb_unset (ctx : AES_CTX) (m : aes_mode) (input : list Z)
    (e : Engine) :
  key_unset (side ctx m) ->
  esp_aes_crypt_ecb ctx m input e
  = (OK, transform (sched e) (firstn 16 input), ctx,
     AES_UNLOCK (emit (EvCrypt (firstn 16 input)) (AES_LOCK e))).
Proof.
  intros [_ Hb]. unfold esp_aes_crypt_ecb.
  rewrite (process_enable_unset ctx m _ Hb).
  destruct m; reflexivity.
Qed.

Lemma ecb_key_set (ctx : AES_CTX) (m : aes_mode) (input : list Z)
    (e : Engine) :
  key_set (side ctx m) ->
  exists e',
    esp_aes_crypt_ecb ctx m input e
    = (OK, ecb_of ctx m (firstn 16 input), ctx, e').
Proof.
  intros [Hf Hv]. destruct (keybit_of_valid _ Hv) as [b [Hb _]].
  destruct (ecb_keyed ctx m b input e Hf Hb) as [e' He].
  exists e'. rewrite He. unfold ecb_of, recorded. rewrite Hb. reflexivity.
Qed.

Lemma ecb_of_length (ctx : AES_CTX) (m : aes_mode) (blk : list Z) :
  sixteen_out bp -> length (ecb_of ctx m blk) = 16%nat.
Proof.
  intros H16. unfold ecb_of. apply H16.
Qed.

(** In either state of the key record a single-block call leaves the
    context alone, computes the transform under the effective key
    schedule, and hands the engine on with that schedule still the
    effective one. *)
Lemma ecb_effective (ctx : AES_CTX) (m : aes_mode) (input : list Z)
    (e : Engine) :
  key_wf (side ctx m) ->
  exists e',
    esp_aes_crypt_ecb ctx m input e
    = (OK, transform (effective ctx m e) (firstn 16 input), ctx, e') /\
    effective ctx m e' = effective ctx m e.
Proof.
  intros [Hs | Hu].
  - destruct (ecb_key_set ctx m input e Hs) as [e' He].
    destruct Hs as [Hf _]. exists e'. unfold effective. rewrite Hf.
    split; [exact He | reflexivity].
  - rewrite (ecb_unset ctx m input e Hu). destruct Hu as [Hf _].
    eexists. unfold effective. rewrite Hf. split; reflexivity.
Qed.

(** C9: the single-block encrypt and decrypt entry points are the same
    function of the engine and the input; the bytes they produce depend
    on the engine only through the key schedule installed on it, and on
    neither the context nor the entry point. *)
Theorem encrypt_decrypt_same_transform
    (ctx ctx' : AES_CTX) (input : list Z) (e e' : Engine) :
  sched e = sched e' ->
  esp_aes_encrypt ctx input e = esp_aes_decrypt ctx input e /\
  fst (esp_aes_encrypt ctx input e) = fst (esp_aes_decrypt ctx' input e') /\
  fst (esp_aes_encrypt ctx input e) = transform (sched e) (firstn 16 input).
Proof.
  intros Hs. unfold esp_aes_encrypt, esp_aes_decrypt, ets_aes_crypt.
  simpl. rewrite Hs. repeat split.
Qed.

(** C2, as the code has it: a block operation for a direction whose key
    was never set does not fail.  The single-block call returns success,
    installs nothing, leaves the context alone and hands back the
    transform of the input under whatever key schedule the engine
    already holds; the stream modes return success, and so does CBC when
    the length is a multiple of 16. *)
Theorem unset_key_is_not_an_error
    (ctx : AES_CTX) (m : aes_mode) (e : Engine) (length : nat) (off : Z)
    (iv nc sb input output : list Z) :
  key_unset (side ctx m) ->
  esp_aes_crypt_ecb ctx m input e
  = (OK, transform (sched e) (firstn 16 input), ctx,
     AES_UNLOCK (emit (EvCrypt (firstn 16 input)) (AES_LOCK e))) /\
  ((length mod 16 = 0)%nat ->
   let '(r, _, _, _, _) := esp_aes_crypt_cbc ctx m length iv input output e in
   r = OK) /\
  (let '(r, _, _, _, _, _) :=
     esp_aes_crypt_cfb128 ctx m length off iv input output e in r = OK) /\
  (let '(r, _, _, _, _) :=
     esp_aes_crypt_cfb8 ctx m length iv input output e in r = OK) /\
  (let '(r, _, _, _, _, _, _) :=
     esp_aes_crypt_ctr ctx length off nc sb input output e in r = OK).
Proof.
  intros Hu. split; [apply ecb_unset; exact Hu |].
  split; [| split; [| split]].
  - intros Hl. unfold esp_aes_crypt_cbc.
    apply Nat.eqb_eq in Hl. rewrite Hl. simpl negb. cbv iota.
    destruct (match m with
              | AES_ENCRYPT => _
              | AES_DECRYPT => _
              end) as [[[? ?] ?] ?].
    reflexivity.
  - unfold esp_aes_crypt_cfb128.
    destruct (match m with
              | AES_ENCRYPT => _
              | AES_DECRYPT => _
              end) as [[[[? ?] ?] ?] ?].
    reflexivity.
  - unfold esp_aes_crypt_cfb8.
    destruct (cfb8_loop _ _ _ _ _ _) as [[[? ?] ?] ?]. reflexivity.
  - unfold esp_aes_crypt_ctr.
    destruct (ctr_loop _ _ _ _ _ _ _) as [[[[[? ?] ?] ?] ?] ?]. reflexivity.
Qed.

(** C7: CBC with a length that is not a multiple of 16 returns
    [ERR_AES_INVALID_INPUT_LENGTH], an error distinct from success and
    from the key-length error, and hands back the context, the engine
    with its log of calls, the IV and the output buffer untouched. *)
Theorem cbc_rejects_ragged_length
    (ctx : AES_CTX) (m : aes_mode) (length : nat)
    (iv input output : list Z) (e : Engine) :
  (length mod 16 <> 0)%nat ->
  esp_aes_crypt_cbc ctx m length iv input output e
  = (ERR_AES_INVALID_INPUT_LENGTH, ctx, e, iv, output) /\
  ERR_AES_INVALID_INPUT_LENGTH <> OK /\
  ERR_AES_INVALID_INPUT_LENGTH <> ERR_AES_INVALID_KEY_LENGTH.
Proof.
  intros Hl. unfold esp_aes_crypt_cbc.
  apply Nat.eqb_neq in Hl. rewrite Hl.
  repeat split; discriminate.
Qed.

End BlockFacts.

(** ** Offsets of the stream modes *)

Lemma next_off_mod (n : Z) : next_off n = (n + 1) mod 16.
Proof.
  unfold next_off. change 15 with (Z.ones 4).
  rewrite Z.land_ones by lia. reflexivity.
Qed.

Lemma off_advance (n : Z) (k : nat) :
  ((n + 1) mod 16 + Z.of_nat k) mod 16 = (n + Z.of_nat (S k)) mod 16.
Proof.
  rewrite Zplus_mod_idemp_l. f_equal. lia.
Qed.

Section OffsetFacts.

Context {bp : BlockPrimitive}.

Lemma cfb128_encrypt_loop_off (length : nat) :
  forall ctx e n iv input,
    let '(_, _, n', _, _) := cfb128_encrypt_loop length ctx e n iv input in
    n' = match length with
         | O => n
         | S _ => (n + Z.of_nat length) mod 16
         end.
Proof.
  induction length as [| k IH]; intros ctx e n iv input.
  - reflexivity.
  - cbn [cfb128_encrypt_loop].
    destruct (refresh_iv ctx e n iv) as [[c1 e1] iv1].
    specialize (IH c1 e1 (next_off n)
                  (upd iv1 (Z.to_nat n)
                     (xor8 (rd iv1 (Z.to_nat n)) (rd input 0)))
                  (skipn 1 input)).
    destruct (cfb128_encrypt_loop k _ _ _ _ _) as [[[[c2 e2] n2] iv2] rest].
    subst n2. rewrite next_off_mod. destruct k.
    + f_equal; lia.
    + apply off_advance.
Qed.

Lemma cfb128_decrypt_loop_off (length : nat) :
  forall ctx e n iv input,
    let '(_, _, n', _, _) := cfb128_decrypt_loop length ctx e n iv input in
    n' = match length with
         | O => n
         | S _ => (n + Z.of_nat length) mod 16
         end.
Proof.
  induction length as [| k IH]; intros ctx e n iv input.
  - reflexivity.
  - cbn [cfb128_decrypt_loop].
    destruct (refresh_iv ctx e n iv) as [[c1 e1] iv1].
    specialize (IH c1 e1 (next_off n)
                  (upd iv1 (Z.to_nat n) (u8 (rd input 0)))
                  (skipn 1 input)).
    destruct (cfb128_decrypt_loop k _ _ _ _ _) as [[[[c2 e2] n2] iv2] rest].
    subst n2. rewrite next_off_mod. destruct k.
    + f_equal; lia.
    + apply off_advance.
Qed.

Lemma ctr_loop_off (length : nat) :
  forall ctx e n nc sb input,
    let '(_, _, n', _, _, _) := ctr_loop length ctx e n nc sb input in
    n' = match length with
         | O => n
         | S _ => (n + Z.of_nat length) mod 16
         end.
Proof.
  induction length as [| k IH]; intros ctx e n nc sb input.
  - reflexivity.
  - cbn [ctr_loop].
    destruct (refresh_stream ctx e n nc sb) as [[[c1 e1] nc1] sb1].
    specialize (IH c1 e1 (next_off n) nc1 sb1 (skipn 1 input)).
    destruct (ctr_loop k _ _ _ _ _ _) as [[[[[c2 e2] n2] nc2] sb2] rest].
    subst n2. rewrite next_off_mod. destruct k.
    + f_equal; lia.
    + apply off_advance.
Qed.

(** C8: a CFB-128 or CTR call that starts with an offset in [0, 16)
    writes back an offset in [0, 16), for every length and both
    directions: the offset written back is the starting offset advanced
    by the number of bytes processed, modulo 16, each byte taking [n] to
    [(n + 1) mod 16]. *)
Theorem stream_offset_in_range
    (ctx : AES_CTX) (m : aes_mode) (length : nat) (off : Z)
    (iv nc sb input output : list Z) (e : Engine) :
  0 <= off < 16 ->
  (let '(_, _, _, off', _, _) :=
     esp_aes_crypt_cfb128 ctx m length off iv input output e in
   0 <= off' < 16 /\ off' = (off + Z.of_nat length) mod 16) /\
  (let '(_, _, _, off', _, _, _) :=
     esp_aes_crypt_ctr ctx length off nc sb input output e in
   0 <= off' < 16 /\ off' = (off + Z.of_nat length) mod 16) /\
  next_off off = (off + 1) mod 16.
Proof.
  intros Hoff.
  assert (Hfin : forall k : nat,
             match k with
             | O => off
             | S _ => (off + Z.of_nat k) mod 16
             end = (off + Z.of_nat k) mod 16).
  { intros [| k]; [| reflexivity].
    rewrite Z.add_0_r, Z.mod_small by lia. reflexivity. }
  assert (Hrange : forall k : nat, 0 <= (off + Z.of_nat k) mod 16 < 16).
  { intros k. apply Z.mod_pos_bound. lia. }
  split; [| split].
  - unfold esp_aes_crypt_cfb128. destruct m.
    + pose proof (cfb128_encrypt_loop_off length ctx e off iv input) as H.
      destruct (cfb128_encrypt_loop _ _ _ _ _ _) as [[[[? ?] n'] ?] ?].
      rewrite Hfin in H. subst n'. split; [apply Hrange | reflexivity].
    + pose proof (cfb128_decrypt_loop_off length ctx e off iv input) as H.
      destruct (cfb128_decrypt_loop _ _ _ _ _ _) as [[[[? ?] n'] ?] ?].
      rewrite Hfin in H. subst n'. split; [apply Hrange | reflexivity].
  - unfold esp_aes_crypt_ctr.
    pose proof (ctr_loop_off length ctx e off nc sb input) as H.
    destruct (ctr_loop _ _ _ _ _ _ _) as [[[[[? ?] n'] ?] ?] ?].
    rewrite Hfin in H. subst n'. split; [apply Hrange | reflexivity].
  - apply next_off_mod.
Qed.

End OffsetFacts.

(** ** CFB-8 *)

Section Cfb8Facts.

Context {bp : BlockPrimitive}.

(** One turn of the shift register: the 16-byte IV loses its first byte
    and gains the byte fed back. *)
Lemma shift_register (iv out : list Z) (c : Z) :
  length iv = 16%nat ->
  memcpy (memcpy iv out 16) (skipn 1 (firstn 16 iv ++ [c])) 16
  = skipn 1 (iv ++ [c]).
Proof.
  intros Hl. unfold memcpy.
  rewrite (firstn_all2 (n := 16) iv) by lia.
  assert (Hs : length (skipn 1 (iv ++ [c])) = 16%nat).
  { rewrite length_skipn, length_app. simpl. lia. }
  rewrite (firstn_all2 (n := 16) (skipn 1 (iv ++ [c]))) by lia.
  rewrite (skipn_all2 (n := 16) (firstn 16 out ++ skipn 16 iv)).
  - apply app_nil_r.
  - rewrite length_app, length_firstn, length_skipn. lia.
Qed.

(** The register after a call holds the last 16 bytes of the IV followed
    by the ciphertext, which is the output when encrypting and the input
    when decrypting. *)
Lemma cfb8_loop_feedback (n : nat) :
  forall ctx m e iv input,
    length iv = 16%nat ->
    (n <= length input)%nat ->
    let '(_, _, iv', out) := cfb8_loop n ctx m e iv input in
    length out = n /\
    iv' = skipn n (iv ++ match m with
                         | AES_ENCRYPT => out
                         | AES_DECRYPT => firstn n input
                         end).
Proof.
  induction n as [| k IH]; intros ctx m e iv input Hiv Hin.
  - simpl. split; [reflexivity |]. destruct m; rewrite app_nil_r; reflexivity.
  - destruct input as [| x input]; [simpl in Hin; lia |].
    cbn [cfb8_loop].
    destruct (esp_aes_crypt_ecb ctx AES_ENCRYPT iv e) as [[[r out] c1] e1].
    rewrite (shift_register iv out _ Hiv).
    change (rd (x :: input) 0) with x.
    change (skipn 1 (x :: input)) with input.
    set (c := xor8 (rd (memcpy iv out 16) 0) x).
    set (fb := match m with AES_ENCRYPT => c | AES_DECRYPT => x end).
    assert (Hiv1 : length (skipn 1 (iv ++ [fb])) = 16%nat).
    { rewrite length_skipn, length_app. simpl. lia. }
    simpl in Hin.
    specialize (IH c1 m e1 (skipn 1 (iv ++ [fb])) input Hiv1
                  ltac:(lia)).
    destruct (cfb8_loop k c1 m e1 _ input) as [[[c2 e2] iv2] rest].
    destruct IH as [Hlen Hfb]. split; [simpl; lia |].
    rewrite Hfb.
    assert (Hne : forall t, skipn 1 (iv ++ [fb]) ++ t
                            = skipn 1 (iv ++ fb :: t)).
    { intros t. destruct iv; [simpl in Hiv; lia |].
      simpl. rewrite <- app_assoc. reflexivity. }
    rewrite Hne, skipn_skipn, Nat.add_1_r.
    destruct m; subst fb; reflexivity.
Qed.

Section RoundTrip.

Variable ctx : AES_CTX.
Hypothesis enc_key : key_set (enc ctx).

(** Decrypting what the encrypt loop wrote gives the plaintext back. *)
Lemma cfb8_loop_round_trip (p : list Z) :
  forall iv e1 e2 rest,
    bytes p ->
    let '(_, _, _, c) :=
      cfb8_loop (length p) ctx AES_ENCRYPT e1 iv p in
    let '(_, _, _, p') :=
      cfb8_loop (length p) ctx AES_DECRYPT e2 iv (c ++ rest) in
    p' = p /\ length c = length p.
Proof.
  induction p as [| x p IH]; intros iv e1 e2 rest Hp.
  - simpl. split; reflexivity.
  - apply Forall_cons_iff in Hp. destruct Hp as [Hx Hp].
    cbn [cfb8_loop length].
    destruct (ecb_key_set ctx AES_ENCRYPT iv e1 enc_key) as [e1' He1].
    destruct (ecb_key_set ctx AES_ENCRYPT iv e2 enc_key) as [e2' He2].
    rewrite He1.
    change (rd (x :: p) 0) with x. change (skipn 1 (x :: p)) with p.
    set (ks := rd (memcpy iv (ecb_of ctx AES_ENCRYPT (firstn 16 iv)) 16) 0).
    set (iv1 := memcpy _ (skipn 1 (firstn 16 iv ++ [xor8 ks x])) 16).
    specialize (IH iv1 e1' e2' rest Hp).
    destruct (cfb8_loop (length p) ctx AES_ENCRYPT e1' iv1 p)
      as [[[c1 e1''] iv1'] cs].
    cbn [app cfb8_loop]. rewrite He2. fold ks.
    change (rd (xor8 ks x :: cs ++ rest) 0) with (xor8 ks x).
    change (skipn 1 (xor8 ks x :: cs ++ rest)) with (cs ++ rest).
    fold iv1.
    destruct (cfb8_loop (length p) ctx AES_DECRYPT e2' iv1 (cs ++ rest))
      as [[[c2 e2''] iv2'] ps].
    destruct IH as [Hps Hlen]. subst ps. split.
    + rewrite (xor8_cancel_l x ks Hx). reflexivity.
    + simpl. rewrite Hlen. reflexivity.
Qed.

End RoundTrip.

(** C5: with the encrypt key set, CFB-8 decryption of the CFB-8
    encryption of any byte string, of any length, each call starting
    from the same 16-byte IV, returns the byte string; and in both
    directions the shift register ends up holding the last 16 bytes of
    the IV followed by the ciphertext, that is, the byte fed back at
    each step is the ciphertext byte of the step. *)
Theorem cfb8_round_trip
    (ctx : AES_CTX) (p iv out1 out2 : list Z) (e1 e2 : Engine) :
  key_set (enc ctx) ->
  bytes p ->
  length iv = 16%nat ->
  let n := length p in
  let '(r1, _, _, iv1, c) :=
    esp_aes_crypt_cfb8 ctx AES_ENCRYPT n iv p out1 e1 in
  let '(r2, _, _, iv2, p') :=
    esp_aes_crypt_cfb8 ctx AES_DECRYPT n iv c out2 e2 in
  r1 = OK /\ r2 = OK /\
  firstn n p' = p /\
  iv1 = skipn n (iv ++ firstn n c) /\
  iv2 = skipn n (iv ++ firstn n c).
Proof.
  intros Hk Hp Hiv. cbv zeta. unfold esp_aes_crypt_cfb8.
  pose proof (cfb8_loop_round_trip ctx Hk p iv e1 e2 (skipn (length p) out1)
                Hp) as Hrt.
  pose proof (cfb8_loop_feedback (length p) ctx AES_ENCRYPT e1 iv p Hiv
                (le_n _)) as Hfe.
  destruct (cfb8_loop (length p) ctx AES_ENCRYPT e1 iv p)
    as [[[c1 e1'] iv1] cs].
  assert (Hcs : length cs = length p) by (destruct Hfe; assumption).
  pose proof (cfb8_loop_feedback (length p) ctx AES_DECRYPT e2 iv
                (cs ++ skipn (length p) out1) Hiv) as Hfd.
  destruct (cfb8_loop (length p) ctx AES_DECRYPT e2 iv
              (cs ++ skipn (length p) out1)) as [[[c2 e2'] iv2] ps].
  destruct Hrt as [Hps _]. subst ps.
  destruct Hfe as [_ Hfe].
  destruct Hfd as [_ Hfd]; [rewrite length_app; lia |].
  assert (Hfc : firstn (length p) (cs ++ skipn (length p) out1) = cs).
  { rewrite <- Hcs. rewrite firstn_app, Nat.sub_diag, firstn_all. simpl.
    apply app_nil_r. }
  rewrite Hfc in *.
  repeat split; try assumption.
  rewrite firstn_app, Nat.sub_diag, firstn_all. simpl. apply app_nil_r.
Qed.

End Cfb8Facts.

(** ** The CTR counter *)

Lemma be_val_snoc (l : list Z) (b : Z) :
  be_val (l ++ [b]) = be_val l * 256 + b.
Proof.
  unfold be_val. rewrite fold_left_app. reflexivity.
Qed.

Lemma be_val_bound (l : list Z) :
  bytes l -> 0 <= be_val l < 256 ^ Z.of_nat (length l).
Proof.
  induction l as [| b l IH] using rev_ind; intros Hl.
  - simpl. unfold be_val. simpl. lia.
  - apply bytes_app in Hl. destruct Hl as [Hl Hb].
    apply Forall_inv in Hb. unfold is_byte in Hb.
    specialize (IH Hl).
    rewrite be_val_snoc, length_app, Nat.add_1_r, Nat2Z.inj_succ,
      Z.pow_succ_r by lia.
    nia.
Qed.

Lemma be_bytes_be_val (l : list Z) :
  bytes l -> be_bytes (length l) (be_val l) = l.
Proof.
  induction l as [| b l IH] using rev_ind; intros Hl.
  - reflexivity.
  - apply bytes_app in Hl. destruct Hl as [Hl Hb].
    apply Forall_inv in Hb. unfold is_byte in Hb.
    rewrite be_val_snoc, length_app, Nat.add_1_r. cbn [be_bytes].
    rewrite Z.div_add_l, (Z.div_small b), Z.add_0_r by lia.
    rewrite Z.add_comm, Z.mod_add, (Z.mod_small b) by lia.
    rewrite (IH Hl). reflexivity.
Qed.

Lemma rd_middle (pre suf : list Z) (b : Z) :
  rd (pre ++ b :: suf) (length pre) = b.
Proof.
  unfold rd. rewrite app_nth2, Nat.sub_diag by lia. reflexivity.
Qed.

Lemma upd_middle (pre suf : list Z) (b x : Z) :
  upd (pre ++ b :: suf) (length pre) x = pre ++ x :: suf.
Proof.
  induction pre as [| a pre IH]; simpl; [| rewrite IH]; reflexivity.
Qed.

(** The carry loop over the last [i] bytes adds one to the big-endian
    number they spell, modulo [256 ^ i], and touches nothing else. *)
Lemma counter_loop_adds_one (i : nat) :
  forall pre suf,
    length pre = i -> bytes pre ->
    exists pre',
      counter_loop i (pre ++ suf) = pre' ++ suf /\
      length pre' = i /\ bytes pre' /\
      be_val pre' = (be_val pre + 1) mod 256 ^ Z.of_nat i.
Proof.
  induction i as [| i IH]; intros pre suf Hlen Hb.
  - destruct pre; [| discriminate]. exists []. repeat split; auto.
  - destruct (exists_last (l := pre)) as [pre0 [b Hpre]];
      [destruct pre; discriminate |]. subst pre.
    rewrite length_app, Nat.add_1_r in Hlen. injection Hlen as Hlen.
    apply bytes_app in Hb. destruct Hb as [Hb0 Hb].
    apply Forall_inv in Hb. unfold is_byte in Hb.
    pose proof (be_val_bound pre0 Hb0) as Hbound. subst i.
    rewrite <- app_assoc. cbn [app counter_loop].
    rewrite rd_middle, upd_middle.
    unfold u8. rewrite be_val_snoc, Nat2Z.inj_succ, Z.pow_succ_r by lia.
    destruct (Z.eq_dec b 255) as [-> | Hne].
    + change ((255 + 1) mod 256) with 0. cbn [Z.eqb negb].
      destruct (IH pre0 (0 :: suf) eq_refl Hb0)
        as (pre' & Hrun & Hl' & Hb' & Hv).
      exists (pre' ++ [0]). rewrite Hrun, <- app_assoc.
      split; [reflexivity |]. split; [rewrite length_app, Nat.add_1_r; lia |].
      split.
      * apply bytes_app. split; [exact Hb' |].
        apply Forall_cons; [unfold is_byte; lia | apply Forall_nil].
      * rewrite be_val_snoc, Hv, Z.add_0_r.
        replace (be_val pre0 * 256 + 255 + 1) with ((be_val pre0 + 1) * 256)
          by lia.
        rewrite (Z.mul_comm 256), Zmult_mod_distr_r. reflexivity.
    + rewrite (Z.mod_small (b + 1)) by lia.
      replace (b + 1 =? 0) with false by (symmetry; apply Z.eqb_neq; lia).
      cbn [negb]. exists (pre0 ++ [b + 1]). rewrite <- app_assoc.
      split; [reflexivity |]. split; [rewrite length_app, Nat.add_1_r; lia |].
      split.
      * apply bytes_app. split; [exact Hb0 |].
        apply Forall_cons; [unfold is_byte; lia | apply Forall_nil].
      * rewrite be_val_snoc, Z.mod_small by nia. lia.
Qed.

(** The carry loop of the source is the increment of a 128-bit
    big-endian counter. *)
Lemma counter_incr_be (nc : list Z) :
  block nc ->
  block (counter_incr nc) /\
  be_val (counter_incr nc) = (be_val nc + 1) mod 2 ^ 128 /\
  counter_incr nc = be_incr128 nc.
Proof.
  intros [Hlen Hb].
  destruct (counter_loop_adds_one 16 nc [] Hlen Hb)
    as (nc' & Hrun & Hl' & Hb' & Hv).
  rewrite !app_nil_r in Hrun. unfold counter_incr. rewrite Hrun.
  change (256 ^ Z.of_nat 16) with (2 ^ 128) in Hv.
  split; [split; assumption |]. split; [exact Hv |].
  unfold be_incr128. rewrite <- Hv, <- Hl'. symmetry.
  apply be_bytes_be_val. exact Hb'.
Qed.

(** ** CTR *)

Lemma ctr_reference_self_inverse (E : list Z -> list Z) (p : list Z) :
  forall n nc sb,
    bytes p ->
    let '(n1, nc1, sb1, c) := ctr_reference E p n nc sb in
    ctr_reference E c n nc sb = (n1, nc1, sb1, p).
Proof.
  induction p as [| x p IH]; intros n nc sb Hp.
  - reflexivity.
  - apply Forall_cons_iff in Hp. destruct Hp as [Hx Hp].
    cbn [ctr_reference].
    set (sb0 := if n =? 0 then E nc else sb).
    set (nc0 := if n =? 0 then be_incr128 nc else nc).
    specialize (IH ((n + 1) mod 16) nc0 sb0 Hp).
    destruct (ctr_reference E p ((n + 1) mod 16) nc0 sb0)
      as [[[n1 nc1] sb1] c].
    cbn [ctr_reference]. fold sb0 nc0. rewrite IH.
    rewrite (xor8_cancel_r x _ Hx). reflexivity.
Qed.

Section CtrFacts.

Context {bp : BlockPrimitive}.
Variable ctx : AES_CTX.
Hypothesis enc_wf : key_wf (enc ctx).
Hypothesis out16 : sixteen_out bp.

(** The loop of the source computes what the reference does, over the
    block transform under the effective key schedule. *)
Lemma ctr_loop_refines (p : list Z) :
  forall e n nc sb,
    block nc -> length sb = 16%nat ->
    exists e',
      effective ctx AES_ENCRYPT e' = effective ctx AES_ENCRYPT e /\
      ctr_loop (length p) ctx e n nc sb p
      = let '(n', nc', sb', c) :=
          ctr_reference (transform (effective ctx AES_ENCRYPT e)) p n nc sb
        in (ctx, e', n', nc', sb', c).
Proof.
  induction p as [| x p IH]; intros e n nc sb Hnc Hsb.
  - exists e. split; reflexivity.
  - cbn [length ctr_loop ctr_reference]. unfold refresh_stream.
    change (rd (x :: p) 0) with x. change (skipn 1 (x :: p)) with p.
    rewrite next_off_mod.
    set (E := transform (effective ctx AES_ENCRYPT e)).
    destruct (n =? 0).
    + destruct (ecb_effective ctx AES_ENCRYPT nc e enc_wf)
        as (e1 & He1 & Heff).
      rewrite He1. fold E.
      destruct Hnc as [Hlen Hb].
      rewrite (firstn_all2 (n := 16) nc) by lia.
      assert (Hcp : memcpy sb (E nc) 16 = E nc).
      { unfold memcpy, E.
        rewrite firstn_all2 by (rewrite out16; lia).
        rewrite skipn_all2 by lia. apply app_nil_r. }
      rewrite Hcp.
      destruct (counter_incr_be nc (conj Hlen Hb)) as (Hblk & _ & Heq).
      rewrite <- Heq.
      destruct (IH e1 ((n + 1) mod 16) (counter_incr nc) (E nc) Hblk
                  (out16 _ nc)) as (e' & Heff' & He').
      rewrite Heff in Heff', He'. fold E in He'.
      exists e'. split; [exact Heff' |]. rewrite He'.
      destruct (ctr_reference _ p _ _ _) as [[[n1 nc1] sb1] c].
      reflexivity.
    + destruct (IH e ((n + 1) mod 16) nc sb Hnc Hsb) as (e' & Heff' & He').
      fold E in He'.
      exists e'. split; [exact Heff' |]. rewrite He'.
      destruct (ctr_reference _ p _ _ _) as [[[n1 nc1] sb1] c].
      reflexivity.
Qed.

End CtrFacts.

(** Bytes of the input buffer beyond [length] are not read. *)
Lemma ctr_loop_ignores_tail {bp : BlockPrimitive} (c rest : list Z) :
  forall ctx e n nc sb,
    ctr_loop (length c) ctx e n nc sb (c ++ rest)
    = ctr_loop (length c) ctx e n nc sb c.
Proof.
  induction c as [| x c IH]; intros ctx e n nc sb; [reflexivity |].
  cbn [length ctr_loop app].
  destruct (refresh_stream ctx e n nc sb) as [[[c1 e3] nc3] sb3].
  change (skipn 1 (x :: c ++ rest)) with (c ++ rest).
  change (skipn 1 (x :: c)) with c.
  rewrite IH. reflexivity.
Qed.

(** C6: a CTR call computes what the design document describes.
    Whenever the offset is 0 the stream block becomes the single-block
    encryption of the counter (under the context's encrypt key when it is
    set, under whatever the engine holds when it never was) and the
    counter is then incremented as a 128-bit big-endian number: the
    carry loop of the source, from byte 15 upwards and stopping at the
    first byte that does not wrap, adds one modulo [2 ^ 128].  Each
    output byte is the input byte XORed with [streamBlock[offset]].
    Running the call again on its own output, from the same starting
    offset, counter and stream block and under the same key, gives the
    input back and ends in the same chaining state. *)
Theorem ctr_matches_reference
    {bp : BlockPrimitive} (ctx : AES_CTX) (off : Z)
    (nc sb p out1 out2 : list Z) (e1 e2 : Engine) :
  key_wf (enc ctx) ->
  sixteen_out bp ->
  block nc ->
  length sb = 16%nat ->
  bytes p ->
  effective ctx AES_ENCRYPT e2 = effective ctx AES_ENCRYPT e1 ->
  let n := length p in
  let E := transform (effective ctx AES_ENCRYPT e1) in
  let '(r1, _, _, off1, nc1, sb1, c) :=
    esp_aes_crypt_ctr ctx n off nc sb p out1 e1 in
  let '(r2, _, _, off2, nc2, sb2, p') :=
    esp_aes_crypt_ctr ctx n off nc sb c out2 e2 in
  r1 = OK /\ r2 = OK /\
  (off1, nc1, sb1, firstn n c) = ctr_reference E p off nc sb /\
  firstn n p' = p /\
  (off2, nc2, sb2) = (off1, nc1, sb1) /\
  counter_incr nc = be_incr128 nc /\
  be_val (counter_incr nc) = (be_val nc + 1) mod 2 ^ 128 /\
  (keyflag (enc ctx) = true -> E = ecb_of ctx AES_ENCRYPT).
Proof.
  intros Hk H16 Hnc Hsb Hp Heff. cbv zeta. unfold esp_aes_crypt_ctr.
  set (E := transform (effective ctx AES_ENCRYPT e1)).
  destruct (ctr_loop_refines ctx Hk H16 p e1 off nc sb Hnc Hsb)
    as (e1' & _ & H1).
  rewrite H1. fold E.
  pose proof (ctr_reference_self_inverse E p off nc sb Hp) as Hinv.
  assert (Hlen : forall q n0 nc0 sb0,
             let '(_, _, _, c) := ctr_reference E q n0 nc0 sb0 in
             length c = length q).
  { induction q as [| x q IH]; intros n0 nc0 sb0; [reflexivity |].
    cbn [ctr_reference].
    specialize (IH ((n0 + 1) mod 16)
                  (if n0 =? 0 then be_incr128 nc0 else nc0)
                  (if n0 =? 0 then E nc0 else sb0)).
    destruct (ctr_reference _ q _ _ _) as [[[? ?] ?] c].
    simpl. rewrite IH. reflexivity. }
  specialize (Hlen p off nc sb).
  destruct (ctr_reference E p off nc sb) as [[[n1 nc1] sb1] c].
  assert (Hin : exists e2',
             ctr_loop (length p) ctx e2 off nc sb
               (c ++ skipn (length p) out1)
             = (ctx, e2', n1, nc1, sb1, p)).
  { destruct (ctr_loop_refines ctx Hk H16 c e2 off nc sb Hnc Hsb)
      as (e2' & _ & H2).
    rewrite Heff in H2. fold E in H2.
    rewrite Hinv, Hlen in H2. exists e2'. rewrite <- H2, <- Hlen.
    apply ctr_loop_ignores_tail. }
  destruct Hin as [e2' H2]. rewrite H2.
  destruct (counter_incr_be nc Hnc) as (_ & Hv & Heq).
  assert (Hfirst : forall a b : list Z,
             firstn (length a) (a ++ b) = a).
  { intros a b. rewrite firstn_app, Nat.sub_diag, firstn_all. simpl.
    apply app_nil_r. }
  repeat split; try assumption.
  - rewrite <- Hlen, Hfirst. reflexivity.
  - apply Hfirst.
  - intros Hf. unfold E, effective, ecb_of. simpl side. rewrite Hf.
    reflexivity.
Qed.

(** ** CBC *)

Lemma rd_tabulate (f : nat -> Z) (i : nat) :
  (i < 16)%nat -> rd (map f (seq 0 16)) i = f i.
Proof.
  intros Hi. unfold rd.
  rewrite (nth_indep _ 0 (f 0%nat)) by (rewrite length_map, length_seq; lia).
  rewrite map_nth, seq_nth by lia. reflexivity.
Qed.

Lemma tabulate_eq (f : nat -> Z) (b : list Z) :
  length b = 16%nat ->
  (forall i, (i < 16)%nat -> f i = rd b i) ->
  map f (seq 0 16) = b.
Proof.
  intros Hl Hf. apply (nth_ext _ _ 0 0).
  - rewrite length_map, length_seq. lia.
  - intros i Hi. rewrite length_map, length_seq in Hi.
    fold (rd (map f (seq 0 16)) i). rewrite rd_tabulate by lia.
    apply Hf. lia.
Qed.

Lemma rd_byte (l : list Z) (i : nat) : bytes l -> is_byte (rd l i).
Proof.
  intros Hl. unfold rd. destruct (Nat.lt_ge_cases i (length l)) as [Hi | Hi].
  - unfold bytes in Hl. rewrite Forall_forall in Hl.
    apply Hl, nth_In, Hi.
  - rewrite nth_overflow by lia. unfold is_byte. lia.
Qed.

Lemma xor_block_is_block (a b : list Z) : block (xor_block a b).
Proof.
  split.
  - unfold xor_block. rewrite length_map, length_seq. reflexivity.
  - unfold bytes, xor_block. apply Forall_map, Forall_forall.
    intros i _. apply u8_byte.
Qed.

(** XORing twice with the same block gives the first 16 bytes back. *)
Lemma xor_block_twice (p iv : list Z) :
  (16 <= length p)%nat -> bytes p ->
  xor_block (xor_block p iv) iv = firstn 16 p.
Proof.
  intros Hl Hp. unfold xor_block at 1. apply tabulate_eq.
  - rewrite length_firstn. lia.
  - intros i Hi. unfold xor_block. rewrite rd_tabulate by lia.
    rewrite xor8_cancel_r by (apply rd_byte; exact Hp).
    unfold rd. rewrite nth_firstn.
    replace (i <? 16)%nat with true by (symmetry; apply Nat.ltb_lt; lia).
    reflexivity.
Qed.

Section CbcFacts.

Context {bp : BlockPrimitive}.
Variable ctx : AES_CTX.
Hypothesis enc_key : key_set (enc ctx).
Hypothesis same_key : dec ctx = enc ctx.
Hypothesis out16 : sixteen_out bp.
Hypothesis inverts : dec_inverts_enc bp.

Lemma dec_key : key_set (side ctx AES_DECRYPT).
Proof.
  simpl. rewrite same_key. exact enc_key.
Qed.

Lemma ecb_of_inverts (x : list Z) :
  block x -> ecb_of ctx AES_DECRYPT (ecb_of ctx AES_ENCRYPT x) = x.
Proof.
  intros Hx. destruct enc_key as [_ Hv].
  destruct (keybit_of_valid _ Hv) as [b [Hb _]].
  unfold ecb_of, recorded. simpl side. rewrite same_key, Hb. simpl.
  apply inverts. exact Hx.
Qed.

Lemma cbc_loop_round_trip (n : nat) :
  forall p iv e1 e2 rest,
    length p = (16 * n)%nat -> bytes p ->
    let '(_, _, iv1, c) := cbc_encrypt_loop n ctx e1 iv p in
    let '(_, _, iv2, p') := cbc_decrypt_loop n ctx e2 iv (c ++ rest) in
    p' = p /\ length c = length p /\ iv2 = iv1.
Proof.
  induction n as [| n IH]; intros p iv e1 e2 rest Hl Hp.
  - destruct p; [| discriminate]. simpl. repeat split.
  - cbn [cbc_encrypt_loop].
    set (x := xor_block p iv).
    destruct (xor_block_is_block p iv) as [Hxl Hxb]. fold x in Hxl, Hxb.
    destruct (ecb_key_set ctx AES_ENCRYPT x e1 enc_key) as [e1' He1].
    rewrite He1. rewrite (firstn_all2 (n := 16) x) by lia.
    set (out := ecb_of ctx AES_ENCRYPT x).
    assert (Hout : length out = 16%nat)
      by (apply ecb_of_length; assumption).
    assert (Hp' : bytes (skipn 16 p)).
    { rewrite <- (firstn_skipn 16 p) in Hp. apply bytes_app in Hp.
      apply Hp. }
    specialize (IH (skipn 16 p) (memcpy iv out 16) e1').
    destruct (cbc_encrypt_loop n ctx e1' (memcpy iv out 16) (skipn 16 p))
      as [[[c1 e1''] iv1] cs].
    cbn [cbc_decrypt_loop]. rewrite <- app_assoc.
    assert (Hf : firstn 16 (out ++ cs ++ rest) = out).
    { rewrite firstn_app, firstn_all2 by lia.
      replace (16 - length out)%nat with 0%nat by lia. apply app_nil_r. }
    assert (Hs : skipn 16 (out ++ cs ++ rest) = cs ++ rest).
    { rewrite skipn_app, skipn_all2 by lia.
      replace (16 - length out)%nat with 0%nat by lia. reflexivity. }
    destruct (ecb_key_set ctx AES_DECRYPT (out ++ cs ++ rest) e2 dec_key)
      as [e2' He2].
    rewrite He2, Hf, Hs.
    assert (Hio : ecb_of ctx AES_DECRYPT out = x)
      by (apply ecb_of_inverts; split; assumption).
    rewrite Hio.
    specialize (IH e2' rest ltac:(rewrite length_skipn; lia) Hp').
    destruct (cbc_decrypt_loop n ctx e2' (memcpy iv out 16) (cs ++ rest))
      as [[[c2 e2''] iv2] ps].
    destruct IH as (Hps & Hlen & Hiv). subst ps x.
    rewrite xor_block_twice by (assumption || lia).
    split; [apply firstn_skipn |]. split; [| exact Hiv].
    rewrite length_app, Hlen, length_skipn. lia.
Qed.

End CbcFacts.

(** C4: for a context with both keys set, the key being the same for
    the two directions, and a block primitive that maps blocks to
    16-byte blocks with [decryptBlock] undoing [encryptBlock] under that
    key, then for every IV and every plaintext whose length is a
    multiple of 16, CBC-decrypting the output of CBC-encrypt from the
    same IV returns the plaintext (and leaves the same final IV). *)
Theorem cbc_round_trip_same_key
    {bp : BlockPrimitive} (ctx : AES_CTX) (p iv out1 out2 : list Z)
    (e1 e2 : Engine) :
  key_set (enc ctx) ->
  dec ctx = enc ctx ->
  sixteen_out bp ->
  dec_inverts_enc bp ->
  (length p mod 16 = 0)%nat ->
  bytes p ->
  let n := length p in
  let '(r1, _, _, iv1, c) :=
    esp_aes_crypt_cbc ctx AES_ENCRYPT n iv p out1 e1 in
  let '(r2, _, _, iv2, p') :=
    esp_aes_crypt_cbc ctx AES_DECRYPT n iv c out2 e2 in
  r1 = OK /\ r2 = OK /\ firstn n p' = p /\ iv2 = iv1.
Proof.
  intros Hk Hsame H16 Hinv Hmod Hp. cbv zeta. unfold esp_aes_crypt_cbc.
  apply Nat.eqb_eq in Hmod. rewrite Hmod. cbn [negb].
  assert (Hl : length p = (16 * (length p / 16))%nat).
  { apply Nat.eqb_eq in Hmod. apply Nat.Div0.div_exact. exact Hmod. }
  pose proof (cbc_loop_round_trip ctx Hk Hsame H16 Hinv (length p / 16) p iv
                e1 e2 (skipn (length p) out1) Hl Hp) as Hrt.
  destruct (cbc_encrypt_loop (length p / 16) ctx e1 iv p)
    as [[[c1 e1'] iv1] cs].
  destruct (cbc_decrypt_loop (length p / 16) ctx e2 iv
              (cs ++ skipn (length p) out1)) as [[[c2 e2'] iv2] ps].
  destruct Hrt as (Hps & Hlen & Hiv). subst ps.
  repeat split; try assumption.
  rewrite firstn_app, Nat.sub_diag, firstn_all. simpl. apply app_nil_r.
Qed.

(** ** The functions at work on the small block primitive *)

Lemma toy_sixteen_out : sixteen_out toy.
Proof.
  intros [[[[|] b] k] |] blk; reflexivity.
Qed.

Lemma toy_inverts : dec_inverts_enc toy.
Proof.
  intros bits k b [Hl Hb]. change (toy_sub k (toy_add k b) = b).
  unfold toy_sub. apply tabulate_eq.
  - exact Hl.
  - intros i Hi. unfold toy_add. rewrite rd_tabulate by exact Hi.
    unfold u8. rewrite Zminus_mod_idemp_l.
    replace (rd b i + rd k i - rd k i) with (rd b i) by lia.
    apply Z.mod_small. apply rd_byte. exact Hb.
Qed.

Ltac concrete_bytes :=
  unfold bytes; simpl;
  repeat (apply Forall_cons; [unfold is_byte; lia |]); apply Forall_nil.

Ltac concrete_key_set :=
  split; [reflexivity | left; reflexivity].

(** C2 as stated fails.  Context A is initialised, given an encrypt key
    and used once; context B is then initialised and used for an encrypt
    without ever being given a key.  The call on B returns success, and
    its output is the encryption of the block under A's key. *)
Lemma unset_key_encrypts_under_stale_key :
  let blk := repeat 3 16 in
  let '(cA, e) := esp_aes_init ctx_zero engine0 in
  let '(_, cA, e) := setKey AES_ENCRYPT cA (repeat 7 16) 128 e in
  let '(_, outA, cA, e) :=
    esp_aes_crypt_ecb (bp := toy) cA AES_ENCRYPT blk e in
  let '(cB, e) := esp_aes_init ctx_zero e in
  let '(rB, outB, _, _) :=
    esp_aes_crypt_ecb (bp := toy) cB AES_ENCRYPT blk e in
  keyflag (enc cB) = false /\
  rB = OK /\
  outB = outA /\
  outB = encryptBlock (BlockPrimitive := toy) AES128 (repeat 7 16) blk.
Proof.
  vm_compute. repeat split.
Qed.

Lemma unset_key_is_not_an_error_witness :
  esp_aes_crypt_ecb (bp := toy) ctx_zero AES_ENCRYPT (repeat 3 32) engine0
  = (OK, transform (bp := toy) (sched engine0) (firstn 16 (repeat 3 32)),
     ctx_zero,
     AES_UNLOCK (emit (EvCrypt (firstn 16 (repeat 3 32)))
                   (AES_LOCK engine0))) /\
  ((32 mod 16 = 0)%nat ->
   let '(r, _, _, _, _) :=
     esp_aes_crypt_cbc (bp := toy) ctx_zero AES_ENCRYPT 32 (zeros 16)
       (repeat 3 32) (zeros 32) engine0 in
   r = OK) /\
  (let '(r, _, _, _, _, _) :=
     esp_aes_crypt_cfb128 (bp := toy) ctx_zero AES_ENCRYPT 32 0 (zeros 16)
       (repeat 3 32) (zeros 32) engine0 in r = OK) /\
  (let '(r, _, _, _, _) :=
     esp_aes_crypt_cfb8 (bp := toy) ctx_zero AES_ENCRYPT 32 (zeros 16)
       (repeat 3 32) (zeros 32) engine0 in r = OK) /\
  (let '(r, _, _, _, _, _, _) :=
     esp_aes_crypt_ctr (bp := toy) ctx_zero 32 0 (zeros 16) (zeros 16)
       (repeat 3 32) (zeros 32) engine0 in r = OK).
Proof.
  apply (unset_key_is_not_an_error (bp := toy) ctx_zero AES_ENCRYPT engine0
           32 0 (zeros 16) (zeros 16) (zeros 16) (repeat 3 32) (zeros 32)).
  split; reflexivity.
Defined.

Lemma encrypt_decrypt_same_transform_witness :
  let e := install AES_ENCRYPT (repeat 7 16) AES128 engine0 in
  let e' := AES_LOCK e in
  let input := repeat 3 16 in
  esp_aes_encrypt (bp := toy) (keyed 1 2) input e
  = esp_aes_decrypt (bp := toy) (keyed 1 2) input e /\
  fst (esp_aes_encrypt (bp := toy) (keyed 1 2) input e)
  = fst (esp_aes_decrypt (bp := toy) ctx_zero input e') /\
  fst (esp_aes_encrypt (bp := toy) (keyed 1 2) input e)
  = transform (bp := toy) (sched e) (firstn 16 input).
Proof.
  apply (encrypt_decrypt_same_transform (bp := toy) (keyed 1 2) ctx_zero
           (repeat 3 16)
           (install AES_ENCRYPT (repeat 7 16) AES128 engine0)
           (AES_LOCK (install AES_ENCRYPT (repeat 7 16) AES128 engine0))).
  reflexivity.
Defined.

Lemma cbc_rejects_ragged_length_witness :
  esp_aes_crypt_cbc (bp := toy) (keyed 1 1) AES_ENCRYPT 20 (zeros 16)
    (repeat 3 20) (zeros 20) engine0
  = (ERR_AES_INVALID_INPUT_LENGTH, keyed 1 1, engine0, zeros 16, zeros 20) /\
  ERR_AES_INVALID_INPUT_LENGTH <> OK /\
  ERR_AES_INVALID_INPUT_LENGTH <> ERR_AES_INVALID_KEY_LENGTH.
Proof.
  apply (cbc_rejects_ragged_length (bp := toy) (keyed 1 1) AES_ENCRYPT 20
           (zeros 16) (repeat 3 20) (zeros 20) engine0).
  vm_compute. discriminate.
Defined.

Lemma stream_offset_in_range_witness :
  (let '(_, _, _, off', _, _) :=
     esp_aes_crypt_cfb128 (bp := toy) (keyed 1 1) AES_DECRYPT 21 13
       (zeros 16) (repeat 3 21) (zeros 21) engine0 in
   0 <= off' < 16 /\ off' = (13 + Z.of_nat 21) mod 16) /\
  (let '(_, _, _, off', _, _, _) :=
     esp_aes_crypt_ctr (bp := toy) (keyed 1 1) 21 13 (repeat 255 16)
       (zeros 16) (repeat 3 21) (zeros 21) engine0 in
   0 <= off' < 16 /\ off' = (13 + Z.of_nat 21) mod 16) /\
  next_off 13 = (13 + 1) mod 16.
Proof.
  apply (stream_offset_in_range (bp := toy) (keyed 1 1) AES_DECRYPT 21 13
           (zeros 16) (repeat 255 16) (zeros 16) (repeat 3 21) (zeros 21)
           engine0).
  lia.
Defined.

Lemma cfb8_round_trip_witness :
  let p := [1; 2; 3; 4; 5; 250; 251; 252; 253; 254; 255; 0; 9; 8; 7; 6;
            5; 4; 3] in
  let iv := repeat 17 16 in
  let n := length p in
  let '(r1, _, _, iv1, c) :=
    esp_aes_crypt_cfb8 (bp := toy) (keyed 1 2) AES_ENCRYPT n iv p
      (zeros 19) engine0 in
  let '(r2, _, _, iv2, p') :=
    esp_aes_crypt_cfb8 (bp := toy) (keyed 1 2) AES_DECRYPT n iv c
      (zeros 19) engine0 in
  r1 = OK /\ r2 = OK /\
  firstn n p' = p /\
  iv1 = skipn n (iv ++ firstn n c) /\
  iv2 = skipn n (iv ++ firstn n c).
Proof.
  apply (cfb8_round_trip (bp := toy) (keyed 1 2)
           [1; 2; 3; 4; 5; 250; 251; 252; 253; 254; 255; 0; 9; 8; 7; 6;
            5; 4; 3]
           (repeat 17 16) (zeros 19) (zeros 19) engine0 engine0).
  - concrete_key_set.
  - concrete_bytes.
  - reflexivity.
Defined.

Lemma ctr_matches_reference_witness :
  let p := [1; 2; 3; 4; 5; 250; 251; 252; 253; 254; 255; 0; 9; 8; 7; 6;
            5; 4; 3] in
  let nc := repeat 255 16 in
  let sb := zeros 16 in
  let e2 := install AES_DECRYPT (repeat 9 16) AES128 engine0 in
  let n := length p in
  let E :=
    transform (bp := toy) (effective (keyed 1 2) AES_ENCRYPT engine0) in
  let '(r1, _, _, off1, nc1, sb1, c) :=
    esp_aes_crypt_ctr (bp := toy) (keyed 1 2) n 0 nc sb p (zeros 19)
      engine0 in
  let '(r2, _, _, off2, nc2, sb2, p') :=
    esp_aes_crypt_ctr (bp := toy) (keyed 1 2) n 0 nc sb c (zeros 19) e2 in
  r1 = OK /\ r2 = OK /\
  (off1, nc1, sb1, firstn n c) = ctr_reference E p 0 nc sb /\
  firstn n p' = p /\
  (off2, nc2, sb2) = (off1, nc1, sb1) /\
  counter_incr nc = be_incr128 nc /\
  be_val (counter_incr nc) = (be_val nc + 1) mod 2 ^ 128 /\
  (keyflag (enc (keyed 1 2)) = true ->
   E = ecb_of (bp := toy) (keyed 1 2) AES_ENCRYPT).
Proof.
  apply (ctr_matches_reference (bp := toy) (keyed 1 2) 0 (repeat 255 16)
           (zeros 16)
           [1; 2; 3; 4; 5; 250; 251; 252; 253; 254; 255; 0; 9; 8; 7; 6;
            5; 4; 3]
           (zeros 19) (zeros 19) engine0
           (install AES_DECRYPT (repeat 9 16) AES128 engine0)).
  - left. concrete_key_set.
  - exact toy_sixteen_out.
  - split; [reflexivity | concrete_bytes].
  - reflexivity.
  - concrete_bytes.
  - reflexivity.
Defined.

Lemma cbc_round_trip_same_key_witness :
  let p := repeat 200 16 ++ repeat 3 16 in
  let iv := repeat 17 16 in
  let n := length p in
  let '(r1, _, _, iv1, c) :=
    esp_aes_crypt_cbc (bp := toy) (keyed 5 5) AES_ENCRYPT n iv p
      (zeros 32) engine0 in
  let '(r2, _, _, iv2, p') :=
    esp_aes_crypt_cbc (bp := toy) (keyed 5 5) AES_DECRYPT n iv c
      (zeros 32) engine0 in
  r1 = OK /\ r2 = OK /\ firstn n p' = p /\ iv2 = iv1.
Proof.
  apply (cbc_round_trip_same_key (bp := toy) (keyed 5 5)
           (repeat 200 16 ++ repeat 3 16) (repeat 17 16)
           (zeros 32) (zeros 32) engine0 engine0).
  - concrete_key_set.
  - reflexivity.
  - exact toy_sixteen_out.
  - exact toy_inverts.
  - reflexivity.
  - concrete_bytes.
Defined.

(** * Further properties *)

(** ** Key records *)

Lemma keybit_of_invalid (n : Z) : ~ valid_keybits n -> keybit_of n = None.
Proof.
  intros Hn. destruct (keybit_of n) as [b |] eqn:Hb; [| reflexivity].
  exfalso. apply Hn. exact (keybit_of_some n b Hb).
Qed.

Lemma setKey_no_keybit
    (m : aes_mode) (ctx : AES_CTX) (k : list Z) (bits : Z) (e : Engine) :
  keybit_of bits = None ->
  setKey m ctx k bits e = (ERR_AES_INVALID_KEY_LENGTH, ctx, e).
Proof.
  intros Hn.
  destruct m; simpl; unfold esp_aes_setkey_enc, esp_aes_setkey_dec;
    rewrite Hn; reflexivity.
Qed.

(** X1: a key-setting call with a size other than 128, 192 or 256
    returns [ERR_AES_INVALID_KEY_LENGTH] and changes neither the context
    nor the engine, in either direction and whatever the key record
    held. *)
Theorem setKey_rejects_invalid_bits
    (m : aes_mode) (ctx : AES_CTX) (k : list Z) (bits : Z) (e : Engine) :
  ~ valid_keybits bits ->
  setKey m ctx k bits e = (ERR_AES_INVALID_KEY_LENGTH, ctx, e).
Proof.
  intros Hn. apply setKey_no_keybit, keybit_of_invalid, Hn.
Qed.

Lemma setKey_rejects_invalid_bits_witness :
  setKey AES_DECRYPT (keyed 1 2) (repeat 9 16) 100 engine0
  = (ERR_AES_INVALID_KEY_LENGTH, keyed 1 2, engine0).
Proof.
  apply (setKey_rejects_invalid_bits AES_DECRYPT (keyed 1 2) (repeat 9 16)
           100 engine0).
  intros [H | [H | H]]; discriminate H.
Defined.

(** X2: the key records stay well formed.  [esp_aes_init] turns any
    context, whatever it held, into one with both records unset; a
    key-setting call on a context with well-formed records, whatever
    its arguments and its result, returns a context with well-formed
    records, never touches the record of the other direction, succeeds
    exactly for the three valid sizes, and after a success the record
    of its direction is set. *)
Theorem setKey_keeps_records_well_formed
    (m : aes_mode) (raw ctx : AES_CTX) (k : list Z) (bits : Z)
    (e : Engine) :
  ctx_wf (fst (esp_aes_init raw e)) /\
  key_unset (enc (fst (esp_aes_init raw e))) /\
  key_unset (dec (fst (esp_aes_init raw e))) /\
  (ctx_wf ctx ->
   let '(r, ctx', _) := setKey m ctx k bits e in
   ctx_wf ctx' /\
   side ctx' (opposite m) = side ctx (opposite m) /\
   (r = OK <-> valid_keybits bits) /\
   (r = OK -> key_set (side ctx' m))).
Proof.
  split; [split; right; split; reflexivity |].
  split; [split; reflexivity |]. split; [split; reflexivity |].
  intros [He Hd].
  destruct (keybit_of bits) as [b |] eqn:Hb.
  - pose proof (keybit_of_some bits b Hb) as Hv.
    destruct m; simpl; unfold esp_aes_setkey_enc, esp_aes_setkey_dec;
      rewrite Hb.
    + destruct (keyflag (enc ctx)) eqn:Hf; simpl.
      * repeat split; auto.
        destruct He as [[_ Hs] | [Hu _]]; [exact Hs | congruence].
      * repeat split; auto. left. split; [reflexivity | exact Hv].
    + destruct (keyflag (dec ctx)) eqn:Hf; simpl.
      * repeat split; auto.
        destruct Hd as [[_ Hs] | [Hu _]]; [exact Hs | congruence].
      * repeat split; auto. left. split; [reflexivity | exact Hv].
  - assert (Hn : ~ valid_keybits bits).
    { intros Hv. destruct (keybit_of_valid bits Hv) as [b [Hb' _]].
      congruence. }
    rewrite (setKey_no_keybit m ctx k bits e Hb).
    repeat split; try assumption; try discriminate.
    + intros Hv. contradiction.
Qed.

(** A context as uninitialised memory may hold it: flags down but sizes
    and bytes set, well formed in neither direction. *)
Lemma setKey_keeps_records_well_formed_witness :
  let raw :=
    {| enc := {| keyflag := false; keybits := 128; key := repeat 7 3 |};
       dec := {| keyflag := true; keybits := 5; key := [] |} |} in
  let ctx := set_dec (keyed 1 2) key_zero in
  ctx_wf (fst (esp_aes_init raw engine0)) /\
  key_unset (enc (fst (esp_aes_init raw engine0))) /\
  key_unset (dec (fst (esp_aes_init raw engine0))) /\
  let '(r, ctx', _) := setKey AES_DECRYPT ctx (repeat 9 24) 192 engine0 in
  ctx_wf ctx' /\
  side ctx' (opposite AES_DECRYPT) = side ctx (opposite AES_DECRYPT) /\
  (r = OK <-> valid_keybits 192) /\
  (r = OK -> key_set (side ctx' AES_DECRYPT)).
Proof.
  destruct (setKey_keeps_records_well_formed AES_DECRYPT
              {| enc := {| keyflag := false; keybits := 128;
                           key := repeat 7 3 |};
                 dec := {| keyflag := true; keybits := 5; key := [] |} |}
              (set_dec (keyed 1 2) key_zero) (repeat 9 24) 192 engine0)
    as (H1 & H2 & H3 & H4).
  split; [exact H1 |]. split; [exact H2 |]. split; [exact H3 |].
  apply H4. split.
  - left. concrete_key_set.
  - right. split; reflexivity.
Defined.

(** ** Single block, further *)

Section BlockMore.

Context {bp : BlockPrimitive}.

(** X3: a single-block call for a direction whose key is set runs under
    that key whatever the engine held before (another context's key, the
    other direction's, none): the output is the block primitive of the
    recorded key on the first 16 input bytes, the context is unchanged,
    and afterwards the engine holds this context's schedule for the
    direction, with reference count and power state as before. *)
Theorem ecb_runs_under_own_key
    (ctx : AES_CTX) (m : aes_mode) (input : list Z) (e : Engine) :
  key_set (side ctx m) ->
  let '(r, out, ctx', e') := esp_aes_crypt_ecb ctx m input e in
  r = OK /\
  out = ecb_of ctx m (firstn 16 input) /\
  ctx' = ctx /\
  sched e' = recorded ctx m /\
  refcount e' = refcount e /\ enabled e' = enabled e.
Proof.
  intros [Hf Hv]. destruct (keybit_of_valid _ Hv) as [b [Hb _]].
  unfold esp_aes_crypt_ecb.
  rewrite (process_enable_keyed ctx m b _ Hf Hb).
  unfold ecb_of, recorded. rewrite Hb.
  destruct m; simpl; repeat split.
Qed.

(** X4: with the same key recorded for both directions and a block
    primitive whose decryption undoes its encryption, a single-block
    decrypt of a single-block encrypt of a block gives the block back,
    whatever the engine was used for in between. *)
Theorem ecb_round_trip_same_key
    (ctx : AES_CTX) (b : list Z) (e1 e2 : Engine) :
  key_set (enc ctx) ->
  dec ctx = enc ctx ->
  sixteen_out bp ->
  dec_inverts_enc bp ->
  block b ->
  let '(r1, c, ctx1, _) := esp_aes_crypt_ecb ctx AES_ENCRYPT b e1 in
  let '(r2, b', _, _) := esp_aes_crypt_ecb ctx1 AES_DECRYPT c e2 in
  r1 = OK /\ r2 = OK /\ b' = b.
Proof.
  intros Hk Hsame H16 Hinv Hb.
  destruct (ecb_key_set ctx AES_ENCRYPT b e1 Hk) as [e1' He1].
  rewrite He1.
  assert (Hd : key_set (side ctx AES_DECRYPT))
    by (simpl; rewrite Hsame; exact Hk).
  destruct (ecb_key_set ctx AES_DECRYPT
              (ecb_of ctx AES_ENCRYPT (firstn 16 b)) e2 Hd) as [e2' He2].
  rewrite He2. destruct Hb as [Hl Hbb].
  rewrite (firstn_all2 (n := 16) b) by lia.
  rewrite (firstn_all2 (n := 16) (ecb_of ctx AES_ENCRYPT b))
    by (rewrite ecb_of_length by exact H16; lia).
  repeat split.
  apply (ecb_of_inverts ctx Hk Hsame Hinv). split; assumption.
Qed.

Lemma span_scan_app (l1 l2 : list hw_event) :
  forall st k,
    span_scan st k (l1 ++ l2)
    = match span_scan st k l1 with
      | Some (st', k') => span_scan st' k' l2
      | None => None
      end.
Proof.
  induction l1 as [| ev l1 IH]; intros st k; [reflexivity |].
  cbn [app span_scan]. destruct (span_step st ev) as [[st' inc] |].
  - apply IH.
  - reflexivity.
Qed.

Lemma span_scan_shift (l : list hw_event) (j : nat) :
  forall st k st' k',
    span_scan st k l = Some (st', k') ->
    span_scan st (j + k) l = Some (st', (j + k')%nat).
Proof.
  induction l as [| ev l IH]; intros st k st' k' H.
  - simpl in H. injection H as <- <-. reflexivity.
  - cbn [span_scan] in *. destruct (span_step st ev) as [[st1 inc] |].
    + rewrite <- Nat.add_assoc. apply IH. exact H.
    + discriminate.
Qed.

(** Whatever the key records hold, a single-block call is one lock
    span: it takes the lock, installs the recorded key if there is a
    valid one, runs one block transform and releases the lock, in that
    order and with nothing else. *)
Lemma ecb_spans (ctx : AES_CTX) (m : aes_mode) (input : list Z)
    (e : Engine) :
  let '(_, _, _, e') := esp_aes_crypt_ecb ctx m input e in spans e e' 1.
Proof.
  unfold esp_aes_crypt_ecb, esp_aes_process_enable, esp_aes_setkey_enc,
    esp_aes_setkey_dec, spans.
  destruct m.
  - destruct (keybit_of (keybits (enc ctx))) as [b |].
    + destruct (keyflag (enc ctx)); simpl.
      * split; [| split; reflexivity].
        exists [EvUnlock; EvCrypt (firstn 16 input);
                EvSetKey AES_ENCRYPT b
                  (firstn (bits_bytes b) (key (enc ctx)));
                EvLock].
        split; reflexivity.
      * split; [| split; reflexivity].
        exists [EvUnlock; EvCrypt (firstn 16 input); EvLock].
        split; reflexivity.
    + simpl. split; [| split; reflexivity].
      exists [EvUnlock; EvCrypt (firstn 16 input); EvLock].
      split; reflexivity.
  - destruct (keybit_of (keybits (dec ctx))) as [b |].
    + destruct (keyflag (dec ctx)); simpl.
      * split; [| split; reflexivity].
        exists [EvUnlock; EvCrypt (firstn 16 input);
                EvSetKey AES_DECRYPT b
                  (firstn (bits_bytes b) (key (dec ctx)));
                EvLock].
        split; reflexivity.
      * split; [| split; reflexivity].
        exists [EvUnlock; EvCrypt (firstn 16 input); EvLock].
        split; reflexivity.
    + simpl. split; [| split; reflexivity].
      exists [EvUnlock; EvCrypt (firstn 16 input); EvLock].
      split; reflexivity.
Qed.

(** A key install and a transform that come before the lock is taken
    are refused, although lock, transform and unlock each occur once. *)
Lemma span_scan_refuses_unlocked_transform (k : list Z) (blk : list Z) :
  span_scan Outside 0
    [EvSetKey AES_ENCRYPT AES128 k; EvCrypt blk; EvLock; EvUnlock]
  = None /\
  span_scan Outside 0 [EvCrypt blk; EvLock; EvUnlock] = None /\
  span_scan Outside 0 [EvLock; EvUnlock; EvCrypt blk] = None.
Proof.
  repeat split.
Qed.

Lemma spans_zero (e : Engine) : spans e e 0.
Proof.
  split; [| split; reflexivity]. exists []. split; reflexivity.
Qed.

Lemma spans_add (e1 e2 e3 : Engine) (a b : nat) :
  spans e1 e2 a -> spans e2 e3 b -> spans e1 e3 (a + b).
Proof.
  intros [(d1 & L1 & S1) (R1 & P1)] [(d2 & L2 & S2) (R2 & P2)].
  split; [| split; congruence].
  exists (d2 ++ d1). split.
  - rewrite L2, L1. apply app_assoc.
  - rewrite rev_app_distr, span_scan_app, S1.
    apply (span_scan_shift (rev d2) a) in S2.
    rewrite Nat.add_0_r in S2. exact S2.
Qed.

(** The record of the decrypt direction plays no part in a single-block
    encrypt: replacing it changes nothing but itself. *)
Lemma ecb_encrypt_ignores_dec (ctx : AES_CTX) (k : key_context)
    (input : list Z) (e : Engine) :
  esp_aes_crypt_ecb (set_dec ctx k) AES_ENCRYPT input e
  = let '(r, out, ctx', e') := esp_aes_crypt_ecb ctx AES_ENCRYPT input e in
    (r, out, set_dec ctx' k, e').
Proof.
  unfold esp_aes_crypt_ecb, esp_aes_process_enable, esp_aes_setkey_enc.
  simpl enc.
  destruct (keybit_of (keybits (enc ctx))); [| reflexivity].
  destruct (keyflag (enc ctx)); reflexivity.
Qed.

End BlockMore.

(** ** CFB-8, further *)

Section Cfb8More.

Context {bp : BlockPrimitive}.

(** A call writes one byte and runs one locked block transform per
    input byte. *)
Lemma cfb8_loop_shape (n : nat) :
  forall ctx m e iv input,
    let '(_, e', _, out) := cfb8_loop n ctx m e iv input in
    length out = n /\ spans e e' n.
Proof.
  induction n as [| k IH]; intros ctx m e iv input.
  - simpl. split; [reflexivity | apply spans_zero].
  - cbn [cfb8_loop].
    pose proof (ecb_spans ctx AES_ENCRYPT iv e) as Hs.
    destruct (esp_aes_crypt_ecb ctx AES_ENCRYPT iv e) as [[[r out] c1] e1].
    match goal with
    | |- context [cfb8_loop k c1 m e1 ?iv' ?inp'] =>
        specialize (IH c1 m e1 iv' inp');
        destruct (cfb8_loop k c1 m e1 iv' inp') as [[[c2 e2] iv2] rest]
    end.
    destruct IH as [Hl Hsp]. split; [simpl; lia |].
    exact (spans_add e e1 e2 1 k Hs Hsp).
Qed.

Lemma cfb8_loop_ctx (n : nat) :
  forall ctx m e iv input,
    key_wf (enc ctx) ->
    let '(ctx', _, _, _) := cfb8_loop n ctx m e iv input in ctx' = ctx.
Proof.
  induction n as [| k IH]; intros ctx m e iv input Hk.
  - reflexivity.
  - cbn [cfb8_loop].
    destruct (ecb_effective ctx AES_ENCRYPT iv e Hk) as (e1 & He & _).
    rewrite He.
    match goal with
    | |- context [cfb8_loop k ctx m e1 ?iv' ?inp'] =>
        specialize (IH ctx m e1 iv' inp' Hk);
        destruct (cfb8_loop k ctx m e1 iv' inp') as [[[c2 e2] iv2] rest]
    end.
    exact IH.
Qed.

Lemma cfb8_loop_app (p1 : list Z) :
  forall b p2 ctx m e iv,
    cfb8_loop (length p1 + b) ctx m e iv (p1 ++ p2)
    = let '(ctx1, e1, iv1, w1) := cfb8_loop (length p1) ctx m e iv p1 in
      let '(ctx2, e2, iv2, w2) := cfb8_loop b ctx1 m e1 iv1 p2 in
      (ctx2, e2, iv2, w1 ++ w2).
Proof.
  induction p1 as [| x p1 IH]; intros b p2 ctx m e iv.
  - simpl. destruct (cfb8_loop b ctx m e iv p2) as [[[c2 e2] iv2] w2].
    reflexivity.
  - cbn [length Nat.add cfb8_loop app].
    destruct (esp_aes_crypt_ecb ctx AES_ENCRYPT iv e) as [[[r out] c1] e1].
    change (rd (x :: p1 ++ p2) 0) with x.
    change (rd (x :: p1) 0) with x.
    change (skipn 1 (x :: p1 ++ p2)) with (p1 ++ p2).
    change (skipn 1 (x :: p1)) with p1.
    rewrite IH.
    destruct (cfb8_loop (length p1) c1 m e1 _ p1) as [[[c2 e2] iv2] w1].
    destruct (cfb8_loop b c2 m e2 iv2 p2) as [[[c3 e3] iv3] w2].
    reflexivity.
Qed.

Lemma cfb8_loop_ignores_dec (n : nat) :
  forall ctx k m e iv input,
    cfb8_loop n (set_dec ctx k) m e iv input
    = let '(c, e', iv', out) := cfb8_loop n ctx m e iv input in
      (set_dec c k, e', iv', out).
Proof.
  induction n as [| j IH]; intros ctx k m e iv input.
  - reflexivity.
  - cbn [cfb8_loop]. rewrite ecb_encrypt_ignores_dec.
    destruct (esp_aes_crypt_ecb ctx AES_ENCRYPT iv e) as [[[r out] c1] e1].
    rewrite IH.
    destruct (cfb8_loop j c1 m e1 _ _) as [[[c2 e2] iv2] rest].
    reflexivity.
Qed.

End Cfb8More.

(** Writing [w] over the start of a buffer and then looking past it. *)
Lemma firstn_written (w rest : list Z) : firstn (length w) (w ++ rest) = w.
Proof.
  rewrite firstn_app, Nat.sub_diag, firstn_all. simpl. apply app_nil_r.
Qed.

Lemma skipn_written (w rest : list Z) : skipn (length w) (w ++ rest) = rest.
Proof.
  rewrite skipn_app, Nat.sub_diag, skipn_all. reflexivity.
Qed.

Lemma skipn_twice (a b : nat) (l : list Z) :
  skipn b (skipn a l) = skipn (a + b) l.
Proof.
  rewrite skipn_skipn. f_equal. lia.
Qed.

(** X5: CFB-8 is resumable.  One call over [p1 ++ p2] gives exactly what
    a call over [p1] followed by a call over [p2] gives, when the second
    call is handed the context, engine and IV the first one left and the
    output pointer moved past the bytes the first one wrote: same
    output bytes, same final IV, same engine. *)
Theorem cfb8_resumable
    {bp : BlockPrimitive} (ctx : AES_CTX) (m : aes_mode)
    (p1 p2 iv out : list Z) (e : Engine) :
  esp_aes_crypt_cfb8 ctx m (length p1 + length p2) iv (p1 ++ p2) out e
  = let '(_, ctx1, e1, iv1, o1) :=
      esp_aes_crypt_cfb8 ctx m (length p1) iv p1 out e in
    let '(r2, ctx2, e2, iv2, o2) :=
      esp_aes_crypt_cfb8 ctx1 m (length p2) iv1 p2
        (skipn (length p1) o1) e1 in
    (r2, ctx2, e2, iv2, firstn (length p1) o1 ++ o2).
Proof.
  unfold esp_aes_crypt_cfb8. rewrite cfb8_loop_app.
  pose proof (cfb8_loop_shape (length p1) ctx m e iv p1) as Hs.
  destruct (cfb8_loop (length p1) ctx m e iv p1) as [[[c1 e1] iv1] w1].
  destruct Hs as [Hl _].
  destruct (cfb8_loop (length p2) c1 m e1 iv1 p2) as [[[c2 e2] iv2] w2].
  rewrite <- Hl, firstn_written, skipn_written, skipn_twice, <- app_assoc.
  reflexivity.
Qed.

(** ** Refresh points of the stream modes *)

Lemma next_off_range (n : Z) : 0 <= next_off n < 16.
Proof.
  rewrite next_off_mod. apply Z.mod_pos_bound. lia.
Qed.

Lemma refreshes_zero (n : Z) : refreshes n 0 = 0%nat.
Proof.
  unfold refreshes. rewrite Z.add_0_r, Z.sub_diag. reflexivity.
Qed.

Lemma refreshes_step (n : Z) (len : nat) :
  0 <= n < 16 ->
  refreshes n (S len)
  = ((if (n =? 0)%Z then 1 else 0) + refreshes (next_off n) len)%nat.
Proof.
  intros Hn. rewrite next_off_mod. unfold refreshes.
  rewrite Nat2Z.inj_succ.
  destruct (Z.eqb_spec n 0) as [-> | Hne].
  - change ((0 + 1) mod 16) with 1. Z.div_mod_to_equations. lia.
  - destruct (Z.eq_dec n 15) as [-> | Hne'].
    + change ((15 + 1) mod 16) with 0. Z.div_mod_to_equations. lia.
    + rewrite (Z.mod_small (n + 1)) by lia. Z.div_mod_to_equations. lia.
Qed.

Lemma xor8_cancel_mid (p v : Z) : is_byte p -> xor8 (xor8 v p) v = p.
Proof.
  intros Hp. rewrite <- (u8_small p Hp) at 2.
  unfold xor8. rewrite !u8_ones. bitwise.
Qed.

Lemma u8_xor8 (a b : Z) : u8 (xor8 a b) = xor8 a b.
Proof.
  apply u8_small, u8_byte.
Qed.

(** ** CFB-128, further *)

Section Cfb128More.

Context {bp : BlockPrimitive}.


Lemma refresh_iv_wf (ctx : AES_CTX) (e : Engine) (n : Z) (iv : list Z) :
  key_wf (enc ctx) ->
  exists e',
    refresh_iv ctx e n iv
    = (ctx, e',
       if n =? 0
       then memcpy iv (transform (effective ctx AES_ENCRYPT e) (firstn 16 iv))
              16
       else iv) /\
    effective ctx AES_ENCRYPT e' = effective ctx AES_ENCRYPT e.
Proof.
  intros Hk. unfold refresh_iv. destruct (n =? 0).
  - destruct (ecb_effective ctx AES_ENCRYPT iv e Hk) as (e1 & He & Heff).
    rewrite He. exists e1. split; [reflexivity | exact Heff].
  - exists e. split; reflexivity.
Qed.

Lemma refresh_iv_ignores_dec (ctx : AES_CTX) (k : key_context) (e : Engine)
    (n : Z) (iv : list Z) :
  refresh_iv (set_dec ctx k) e n iv
  = let '(c, e', iv') := refresh_iv ctx e n iv in (set_dec c k, e', iv').
Proof.
  unfold refresh_iv. destruct (n =? 0); [| reflexivity].
  rewrite ecb_encrypt_ignores_dec.
  destruct (esp_aes_crypt_ecb ctx AES_ENCRYPT iv e) as [[[r out] c1] e1].
  reflexivity.
Qed.



(** The number of bytes written does not depend on the offset. *)
Lemma cfb128_encrypt_loop_length (len : nat) :
  forall ctx e n iv input,
    let '(_, _, _, _, out) := cfb128_encrypt_loop len ctx e n iv input in
    length out = len.
Proof.
  induction len as [| k IH]; intros ctx e n iv input; [reflexivity |].
  cbn [cfb128_encrypt_loop].
  destruct (refresh_iv ctx e n iv) as [[c1 e1] iv1].
  match goal with
  | |- context [cfb128_encrypt_loop k c1 e1 ?n' ?iv' ?inp'] =>
      specialize (IH c1 e1 n' iv' inp');
      destruct (cfb128_encrypt_loop k c1 e1 n' iv' inp')
        as [[[[c2 e2] n2] iv2] rest]
  end.
  simpl. lia.
Qed.

Lemma cfb128_decrypt_loop_length (len : nat) :
  forall ctx e n iv input,
    let '(_, _, _, _, out) := cfb128_decrypt_loop len ctx e n iv input in
    length out = len.
Proof.
  induction len as [| k IH]; intros ctx e n iv input; [reflexivity |].
  cbn [cfb128_decrypt_loop].
  destruct (refresh_iv ctx e n iv) as [[c1 e1] iv1].
  match goal with
  | |- context [cfb128_decrypt_loop k c1 e1 ?n' ?iv' ?inp'] =>
      specialize (IH c1 e1 n' iv' inp');
      destruct (cfb128_decrypt_loop k c1 e1 n' iv' inp')
        as [[[[c2 e2] n2] iv2] rest]
  end.
  simpl. lia.
Qed.

Lemma cfb128_encrypt_loop_app (p1 : list Z) :
  forall b p2 ctx e n iv,
    cfb128_encrypt_loop (length p1 + b) ctx e n iv (p1 ++ p2)
    = let '(ctx1, e1, n1, iv1, w1) :=
        cfb128_encrypt_loop (length p1) ctx e n iv p1 in
      let '(ctx2, e2, n2, iv2, w2) :=
        cfb128_encrypt_loop b ctx1 e1 n1 iv1 p2 in
      (ctx2, e2, n2, iv2, w1 ++ w2).
Proof.
  induction p1 as [| x p1 IH]; intros b p2 ctx e n iv.
  - simpl.
    destruct (cfb128_encrypt_loop b ctx e n iv p2)
      as [[[[c2 e2] n2] iv2] w2].
    reflexivity.
  - cbn [length Nat.add cfb128_encrypt_loop app].
    destruct (refresh_iv ctx e n iv) as [[c1 e1] iv1].
    change (rd (x :: p1 ++ p2) 0) with x.
    change (rd (x :: p1) 0) with x.
    change (skipn 1 (x :: p1 ++ p2)) with (p1 ++ p2).
    change (skipn 1 (x :: p1)) with p1.
    rewrite IH.
    destruct (cfb128_encrypt_loop (length p1) c1 e1 _ _ p1)
      as [[[[c2 e2] n2] iv2] w1].
    destruct (cfb128_encrypt_loop b c2 e2 n2 iv2 p2)
      as [[[[c3 e3] n3] iv3] w2].
    reflexivity.
Qed.

Lemma cfb128_decrypt_loop_app (p1 : list Z) :
  forall b p2 ctx e n iv,
    cfb128_decrypt_loop (length p1 + b) ctx e n iv (p1 ++ p2)
    = let '(ctx1, e1, n1, iv1, w1) :=
        cfb128_decrypt_loop (length p1) ctx e n iv p1 in
      let '(ctx2, e2, n2, iv2, w2) :=
        cfb128_decrypt_loop b ctx1 e1 n1 iv1 p2 in
      (ctx2, e2, n2, iv2, w1 ++ w2).
Proof.
  induction p1 as [| x p1 IH]; intros b p2 ctx e n iv.
  - simpl.
    destruct (cfb128_decrypt_loop b ctx e n iv p2)
      as [[[[c2 e2] n2] iv2] w2].
    reflexivity.
  - cbn [length Nat.add cfb128_decrypt_loop app].
    destruct (refresh_iv ctx e n iv) as [[c1 e1] iv1].
    change (rd (x :: p1 ++ p2) 0) with x.
    change (rd (x :: p1) 0) with x.
    change (skipn 1 (x :: p1 ++ p2)) with (p1 ++ p2).
    change (skipn 1 (x :: p1)) with p1.
    rewrite IH.
    destruct (cfb128_decrypt_loop (length p1) c1 e1 _ _ p1)
      as [[[[c2 e2] n2] iv2] w1].
    destruct (cfb128_decrypt_loop b c2 e2 n2 iv2 p2)
      as [[[[c3 e3] n3] iv3] w2].
    reflexivity.
Qed.

Lemma cfb128_encrypt_loop_ignores_dec (len : nat) :
  forall ctx k e n iv input,
    cfb128_encrypt_loop len (set_dec ctx k) e n iv input
    = let '(c, e', n', iv', out) :=
        cfb128_encrypt_loop len ctx e n iv input in
      (set_dec c k, e', n', iv', out).
Proof.
  induction len as [| j IH]; intros ctx k e n iv input; [reflexivity |].
  cbn [cfb128_encrypt_loop]. rewrite refresh_iv_ignores_dec.
  destruct (refresh_iv ctx e n iv) as [[c1 e1] iv1].
  rewrite IH.
  destruct (cfb128_encrypt_loop j c1 e1 _ _ _) as [[[[c2 e2] n2] iv2] rest].
  reflexivity.
Qed.

Lemma cfb128_decrypt_loop_ignores_dec (len : nat) :
  forall ctx k e n iv input,
    cfb128_decrypt_loop len (set_dec ctx k) e n iv input
    = let '(c, e', n', iv', out) :=
        cfb128_decrypt_loop len ctx e n iv input in
      (set_dec c k, e', n', iv', out).
Proof.
  induction len as [| j IH]; intros ctx k e n iv input; [reflexivity |].
  cbn [cfb128_decrypt_loop]. rewrite refresh_iv_ignores_dec.
  destruct (refresh_iv ctx e n iv) as [[c1 e1] iv1].
  rewrite IH.
  destruct (cfb128_decrypt_loop j c1 e1 _ _ _) as [[[[c2 e2] n2] iv2] rest].
  reflexivity.
Qed.

Lemma cfb128_encrypt_loop_ctx (len : nat) :
  forall ctx e n iv input,
    key_wf (enc ctx) ->
    let '(ctx', _, _, _, _) := cfb128_encrypt_loop len ctx e n iv input in
    ctx' = ctx.
Proof.
  induction len as [| k IH]; intros ctx e n iv input Hk; [reflexivity |].
  cbn [cfb128_encrypt_loop].
  destruct (refresh_iv_wf ctx e n iv Hk) as (e1 & He & _). rewrite He.
  match goal with
  | |- context [cfb128_encrypt_loop k ctx e1 ?n' ?iv' ?inp'] =>
      specialize (IH ctx e1 n' iv' inp' Hk);
      destruct (cfb128_encrypt_loop k ctx e1 n' iv' inp')
        as [[[[c2 e2] n2] iv2] rest]
  end.
  exact IH.
Qed.

Lemma cfb128_decrypt_loop_ctx (len : nat) :
  forall ctx e n iv input,
    key_wf (enc ctx) ->
    let '(ctx', _, _, _, _) := cfb128_decrypt_loop len ctx e n iv input in
    ctx' = ctx.
Proof.
  induction len as [| k IH]; intros ctx e n iv input Hk; [reflexivity |].
  cbn [cfb128_decrypt_loop].
  destruct (refresh_iv_wf ctx e n iv Hk) as (e1 & He & _). rewrite He.
  match goal with
  | |- context [cfb128_decrypt_loop k ctx e1 ?n' ?iv' ?inp'] =>
      specialize (IH ctx e1 n' iv' inp' Hk);
      destruct (cfb128_decrypt_loop k ctx e1 n' iv' inp')
        as [[[[c2 e2] n2] iv2] rest]
  end.
  exact IH.
Qed.

(** Decrypting what the encrypt loop wrote, from the same offset and IV
    and under the same effective key, gives the input back and ends in
    the same offset and IV. *)
Lemma cfb128_loop_round_trip (ctx : AES_CTX) (p : list Z) :
  key_wf (enc ctx) ->
  forall n iv e1 e2 rest,
    bytes p ->
    effective ctx AES_ENCRYPT e2 = effective ctx AES_ENCRYPT e1 ->
    let '(_, _, n1, iv1, c) :=
      cfb128_encrypt_loop (length p) ctx e1 n iv p in
    let '(_, _, n2, iv2, p') :=
      cfb128_decrypt_loop (length p) ctx e2 n iv (c ++ rest) in
    p' = p /\ n2 = n1 /\ iv2 = iv1.
Proof.
  intros Hk. induction p as [| x p IH]; intros n iv e1 e2 rest Hp Heff.
  - simpl. repeat split.
  - apply Forall_cons_iff in Hp. destruct Hp as [Hx Hp].
    cbn [length cfb128_encrypt_loop].
    destruct (refresh_iv_wf ctx e1 n iv Hk) as (e1' & He1 & Heff1).
    destruct (refresh_iv_wf ctx e2 n iv Hk) as (e2' & He2 & Heff2).
    rewrite He1. rewrite Heff in He2.
    change (rd (x :: p) 0) with x. change (skipn 1 (x :: p)) with p.
    set (iv0 := if n =? 0 then _ else iv) in *.
    set (o := xor8 (rd iv0 (Z.to_nat n)) x).
    specialize (IH (next_off n) (upd iv0 (Z.to_nat n) o) e1' e2' rest Hp
                  ltac:(congruence)).
    destruct (cfb128_encrypt_loop (length p) ctx e1' _ _ p)
      as [[[[c1 e1''] n1] iv1] cs].
    cbn [app cfb128_decrypt_loop]. rewrite He2.
    change (rd (o :: cs ++ rest) 0) with o.
    change (skipn 1 (o :: cs ++ rest)) with (cs ++ rest).
    replace (u8 o) with o by (unfold o; symmetry; apply u8_xor8).
    destruct (cfb128_decrypt_loop (length p) ctx e2' _ _ (cs ++ rest))
      as [[[[c2 e2''] n2] iv2] ps].
    destruct IH as (Hps & Hn & Hiv). subst ps.
    repeat split; try assumption.
    unfold o. rewrite (xor8_cancel_mid x _ Hx). reflexivity.
Qed.

End Cfb128More.

(** X6: with the encrypt key set, CFB-128 decryption of the CFB-128
    encryption of any byte string, of any length and from any starting
    offset, each call starting from the same offset and IV, returns the
    byte string, and both calls end in the same offset and IV.  Both
    directions run the block encryption; the decrypt key plays no part. *)
Theorem cfb128_round_trip
    {bp : BlockPrimitive} (ctx : AES_CTX) (off : Z)
    (p iv out1 out2 : list Z) (e1 e2 : Engine) :
  key_set (enc ctx) ->
  bytes p ->
  let n := length p in
  let '(r1, _, _, off1, iv1, c) :=
    esp_aes_crypt_cfb128 ctx AES_ENCRYPT n off iv p out1 e1 in
  let '(r2, _, _, off2, iv2, p') :=
    esp_aes_crypt_cfb128 ctx AES_DECRYPT n off iv c out2 e2 in
  r1 = OK /\ r2 = OK /\ firstn n p' = p /\ off2 = off1 /\ iv2 = iv1.
Proof.
  intros Hk Hp. cbv zeta. unfold esp_aes_crypt_cfb128.
  assert (Heff : effective ctx AES_ENCRYPT e2 = effective ctx AES_ENCRYPT e1).
  { unfold effective. simpl side. destruct Hk as [Hf _]. rewrite Hf.
    reflexivity. }
  pose proof (cfb128_loop_round_trip ctx p (or_introl Hk) off iv e1 e2
                (skipn (length p) out1) Hp Heff) as Hrt.
  pose proof (cfb128_encrypt_loop_length (length p) ctx e1 off iv p) as Hl.
  destruct (cfb128_encrypt_loop (length p) ctx e1 off iv p)
    as [[[[c1 e1'] n1] iv1] cs].
  destruct (cfb128_decrypt_loop (length p) ctx e2 off iv
              (cs ++ skipn (length p) out1)) as [[[[c2 e2'] n2] iv2] ps].
  destruct Hrt as (Hps & Hn & Hiv). subst ps.
  repeat split; try assumption.
  apply firstn_written.
Qed.

(** X7: CFB-128 is resumable at any byte, in both directions.  One call
    over [p1 ++ p2] gives exactly what a call over [p1] followed by a
    call over [p2] gives, when the second call is handed the context,
    engine, offset and IV the first one left and the output pointer
    moved past the bytes the first one wrote. *)
Theorem cfb128_resumable
    {bp : BlockPrimitive} (ctx : AES_CTX) (m : aes_mode) (off : Z)
    (p1 p2 iv out : list Z) (e : Engine) :
  esp_aes_crypt_cfb128 ctx m (length p1 + length p2) off iv (p1 ++ p2) out e
  = let '(_, ctx1, e1, off1, iv1, o1) :=
      esp_aes_crypt_cfb128 ctx m (length p1) off iv p1 out e in
    let '(r2, ctx2, e2, off2, iv2, o2) :=
      esp_aes_crypt_cfb128 ctx1 m (length p2) off1 iv1 p2
        (skipn (length p1) o1) e1 in
    (r2, ctx2, e2, off2, iv2, firstn (length p1) o1 ++ o2).
Proof.
  unfold esp_aes_crypt_cfb128. destruct m.
  - rewrite cfb128_encrypt_loop_app.
    pose proof (cfb128_encrypt_loop_length (length p1) ctx e off iv p1) as Hl.
    destruct (cfb128_encrypt_loop (length p1) ctx e off iv p1)
      as [[[[c1 e1] n1] iv1] w1].
    destruct (cfb128_encrypt_loop (length p2) c1 e1 n1 iv1 p2)
      as [[[[c2 e2] n2] iv2] w2].
    rewrite <- Hl, firstn_written, skipn_written, skipn_twice, <- app_assoc.
    reflexivity.
  - rewrite cfb128_decrypt_loop_app.
    pose proof (cfb128_decrypt_loop_length (length p1) ctx e off iv p1) as Hl.
    destruct (cfb128_decrypt_loop (length p1) ctx e off iv p1)
      as [[[[c1 e1] n1] iv1] w1].
    destruct (cfb128_decrypt_loop (length p2) c1 e1 n1 iv1 p2)
      as [[[[c2 e2] n2] iv2] w2].
    rewrite <- Hl, firstn_written, skipn_written, skipn_twice, <- app_assoc.
    reflexivity.
Qed.

(** ** CTR, further *)

Section CtrMore.

Context {bp : BlockPrimitive}.


Lemma refresh_stream_counter (ctx : AES_CTX) (e : Engine) (n : Z)
    (nc sb : list Z) :
  let '(_, _, nc', _) := refresh_stream ctx e n nc sb in
  nc' = if n =? 0 then counter_incr nc else nc.
Proof.
  unfold refresh_stream. destruct (n =? 0); [| reflexivity].
  destruct (esp_aes_crypt_ecb ctx AES_ENCRYPT nc e) as [[[r out] c1] e1].
  reflexivity.
Qed.

Lemma refresh_stream_ignores_dec (ctx : AES_CTX) (k : key_context)
    (e : Engine) (n : Z) (nc sb : list Z) :
  refresh_stream (set_dec ctx k) e n nc sb
  = let '(c, e', nc', sb') := refresh_stream ctx e n nc sb in
    (set_dec c k, e', nc', sb').
Proof.
  unfold refresh_stream. destruct (n =? 0); [| reflexivity].
  rewrite ecb_encrypt_ignores_dec.
  destruct (esp_aes_crypt_ecb ctx AES_ENCRYPT nc e) as [[[r out] c1] e1].
  reflexivity.
Qed.

Lemma refresh_stream_ctx (ctx : AES_CTX) (e : Engine) (n : Z)
    (nc sb : list Z) :
  key_wf (enc ctx) ->
  let '(ctx', _, _, _) := refresh_stream ctx e n nc sb in ctx' = ctx.
Proof.
  intros Hk. unfold refresh_stream. destruct (n =? 0); [| reflexivity].
  destruct (ecb_effective ctx AES_ENCRYPT nc e Hk) as (e1 & He & _).
  rewrite He. reflexivity.
Qed.

Lemma ctr_loop_length (len : nat) :
  forall ctx e n nc sb input,
    let '(_, _, _, _, _, out) := ctr_loop len ctx e n nc sb input in
    length out = len.
Proof.
  induction len as [| k IH]; intros ctx e n nc sb input; [reflexivity |].
  cbn [ctr_loop].
  destruct (refresh_stream ctx e n nc sb) as [[[c1 e1] nc1] sb1].
  specialize (IH c1 e1 (next_off n) nc1 sb1 (skipn 1 input)).
  destruct (ctr_loop k c1 e1 _ nc1 sb1 _) as [[[[[c2 e2] n2] nc2] sb2] rest].
  simpl. lia.
Qed.


(** The counter moves by the number of refreshes, as a 128-bit
    big-endian number. *)
Lemma ctr_loop_counter (len : nat) :
  forall ctx e n nc sb input,
    block nc -> 0 <= n < 16 ->
    let '(_, _, _, nc', _, _) := ctr_loop len ctx e n nc sb input in
    block nc' /\
    be_val nc' = (be_val nc + Z.of_nat (refreshes n len)) mod 2 ^ 128.
Proof.
  induction len as [| k IH]; intros ctx e n nc sb input Hnc Hn.
  - simpl. rewrite refreshes_zero. split; [exact Hnc |].
    destruct Hnc as [Hl Hb]. pose proof (be_val_bound nc Hb) as Hbd.
    rewrite Hl in Hbd. change (256 ^ Z.of_nat 16) with (2 ^ 128) in Hbd.
    rewrite Z.add_0_r, Z.mod_small by lia. reflexivity.
  - cbn [ctr_loop]. rewrite (refreshes_step n k Hn).
    pose proof (refresh_stream_counter ctx e n nc sb) as Hc.
    destruct (refresh_stream ctx e n nc sb) as [[[c1 e1] nc1] sb1].
    assert (Hnc1 : block nc1 /\
                   be_val nc1
                   = (be_val nc + (if n =? 0 then 1 else 0)) mod 2 ^ 128).
    { subst nc1. destruct (n =? 0).
      - destruct (counter_incr_be nc Hnc) as (Hb1 & Hv & _).
        split; assumption.
      - split; [exact Hnc |].
        destruct Hnc as [Hl Hb]. pose proof (be_val_bound nc Hb) as Hbd.
        rewrite Hl in Hbd. change (256 ^ Z.of_nat 16) with (2 ^ 128) in Hbd.
        rewrite Z.add_0_r, Z.mod_small by lia. reflexivity. }
    destruct Hnc1 as [Hb1 Hv1].
    specialize (IH c1 e1 (next_off n) nc1 sb1 (skipn 1 input) Hb1
                  (next_off_range n)).
    destruct (ctr_loop k c1 e1 _ nc1 sb1 _)
      as [[[[[c2 e2] n2] nc2] sb2] rest].
    destruct IH as [Hb2 Hv2]. split; [exact Hb2 |].
    rewrite Hv2, Hv1, Zplus_mod_idemp_l. f_equal.
    destruct (n =? 0); lia.
Qed.

Lemma ctr_loop_app (p1 : list Z) :
  forall b p2 ctx e n nc sb,
    ctr_loop (length p1 + b) ctx e n nc sb (p1 ++ p2)
    = let '(ctx1, e1, n1, nc1, sb1, w1) :=
        ctr_loop (length p1) ctx e n nc sb p1 in
      let '(ctx2, e2, n2, nc2, sb2, w2) :=
        ctr_loop b ctx1 e1 n1 nc1 sb1 p2 in
      (ctx2, e2, n2, nc2, sb2, w1 ++ w2).
Proof.
  induction p1 as [| x p1 IH]; intros b p2 ctx e n nc sb.
  - simpl.
    destruct (ctr_loop b ctx e n nc sb p2)
      as [[[[[c2 e2] n2] nc2] sb2] w2].
    reflexivity.
  - cbn [length Nat.add ctr_loop app].
    destruct (refresh_stream ctx e n nc sb) as [[[c1 e1] nc1] sb1].
    change (rd (x :: p1 ++ p2) 0) with x.
    change (rd (x :: p1) 0) with x.
    change (skipn 1 (x :: p1 ++ p2)) with (p1 ++ p2).
    change (skipn 1 (x :: p1)) with p1.
    rewrite IH.
    destruct (ctr_loop (length p1) c1 e1 _ nc1 sb1 p1)
      as [[[[[c2 e2] n2] nc2] sb2] w1].
    destruct (ctr_loop b c2 e2 n2 nc2 sb2 p2)
      as [[[[[c3 e3] n3] nc3] sb3] w2].
    reflexivity.
Qed.

Lemma ctr_loop_ignores_dec (len : nat) :
  forall ctx k e n nc sb input,
    ctr_loop len (set_dec ctx k) e n nc sb input
    = let '(c, e', n', nc', sb', out) :=
        ctr_loop len ctx e n nc sb input in
      (set_dec c k, e', n', nc', sb', out).
Proof.
  induction len as [| j IH]; intros ctx k e n nc sb input; [reflexivity |].
  cbn [ctr_loop]. rewrite refresh_stream_ignores_dec.
  destruct (refresh_stream ctx e n nc sb) as [[[c1 e1] nc1] sb1].
  rewrite IH.
  destruct (ctr_loop j c1 e1 _ nc1 sb1 _)
    as [[[[[c2 e2] n2] nc2] sb2] rest].
  reflexivity.
Qed.

Lemma ctr_loop_ctx (len : nat) :
  forall ctx e n nc sb input,
    key_wf (enc ctx) ->
    let '(ctx', _, _, _, _, _) := ctr_loop len ctx e n nc sb input in
    ctx' = ctx.
Proof.
  induction len as [| k IH]; intros ctx e n nc sb input Hk; [reflexivity |].
  cbn [ctr_loop].
  pose proof (refresh_stream_ctx ctx e n nc sb Hk) as Hc.
  destruct (refresh_stream ctx e n nc sb) as [[[c1 e1] nc1] sb1].
  subst c1.
  specialize (IH ctx e1 (next_off n) nc1 sb1 (skipn 1 input) Hk).
  destruct (ctr_loop k ctx e1 _ nc1 sb1 _)
    as [[[[[c2 e2] n2] nc2] sb2] rest].
  exact IH.
Qed.

End CtrMore.

(** X8: CTR is resumable at any byte.  One call over [p1 ++ p2] gives
    exactly what a call over [p1] followed by a call over [p2] gives,
    when the second call is handed the context, engine, offset, counter
    and stream block the first one left and the output pointer moved
    past the bytes the first one wrote. *)
Theorem ctr_resumable
    {bp : BlockPrimitive} (ctx : AES_CTX) (off : Z)
    (p1 p2 nc sb out : list Z) (e : Engine) :
  esp_aes_crypt_ctr ctx (length p1 + length p2) off nc sb (p1 ++ p2) out e
  = let '(_, ctx1, e1, off1, nc1, sb1, o1) :=
      esp_aes_crypt_ctr ctx (length p1) off nc sb p1 out e in
    let '(r2, ctx2, e2, off2, nc2, sb2, o2) :=
      esp_aes_crypt_ctr ctx1 (length p2) off1 nc1 sb1 p2
        (skipn (length p1) o1) e1 in
    (r2, ctx2, e2, off2, nc2, sb2, firstn (length p1) o1 ++ o2).
Proof.
  unfold esp_aes_crypt_ctr. rewrite ctr_loop_app.
  pose proof (ctr_loop_length (length p1) ctx e off nc sb p1) as Hl.
  destruct (ctr_loop (length p1) ctx e off nc sb p1)
    as [[[[[c1 e1] n1] nc1] sb1] w1].
  destruct (ctr_loop (length p2) c1 e1 n1 nc1 sb1 p2)
    as [[[[[c2 e2] n2] nc2] sb2] w2].
  rewrite <- Hl, firstn_written, skipn_written, skipn_twice, <- app_assoc.
  reflexivity.
Qed.

(** X9: a CTR call that starts with a 16-byte counter and an offset in
    [0, 16) leaves a 16-byte counter whose big-endian value is the
    starting value plus the number of block refreshes of the call,
    modulo [2 ^ 128]; started at offset 0 that number is the length
    divided by 16, rounded up.  The counter does not depend on the data
    or on the key. *)
Theorem ctr_counter_advance
    {bp : BlockPrimitive} (ctx : AES_CTX) (length : nat) (off : Z)
    (nc sb input output : list Z) (e : Engine) :
  block nc ->
  0 <= off < 16 ->
  let '(_, _, _, _, nc', _, _) :=
    esp_aes_crypt_ctr ctx length off nc sb input output e in
  block nc' /\
  be_val nc' = (be_val nc + Z.of_nat (refreshes off length)) mod 2 ^ 128 /\
  Z.of_nat (refreshes 0 length) = (Z.of_nat length + 15) / 16.
Proof.
  intros Hnc Hoff. unfold esp_aes_crypt_ctr.
  pose proof (ctr_loop_counter length ctx e off nc sb input Hnc Hoff) as H.
  destruct (ctr_loop length ctx e off nc sb input)
    as [[[[[c1 e1] n1] nc1] sb1] w].
  destruct H as [Hb Hv]. repeat split; try assumption; try apply Hb.
  unfold refreshes. change ((0 + 15) / 16) with 0.
  rewrite Z.sub_0_r, Z.add_0_l, Z2Nat.id; [reflexivity |].
  apply Z.div_pos; lia.
Qed.

(** ** CBC, further *)

Lemma xor_block_reads_16 (a b : list Z) :
  xor_block a b = xor_block (firstn 16 a) b.
Proof.
  unfold xor_block. apply map_ext_in. intros i Hi.
  apply in_seq in Hi. unfold rd. rewrite nth_firstn.
  replace (i <? 16)%nat with true by (symmetry; apply Nat.ltb_lt; lia).
  reflexivity.
Qed.

Lemma firstn_16_app (p1 p2 : list Z) :
  (16 <= length p1)%nat -> firstn 16 (p1 ++ p2) = firstn 16 p1.
Proof.
  intros Hl. rewrite firstn_app.
  replace (16 - length p1)%nat with 0%nat by lia. apply app_nil_r.
Qed.

Lemma skipn_16_app (p1 p2 : list Z) :
  (16 <= length p1)%nat -> skipn 16 (p1 ++ p2) = skipn 16 p1 ++ p2.
Proof.
  intros Hl. rewrite skipn_app.
  replace (16 - length p1)%nat with 0%nat by lia. reflexivity.
Qed.

Lemma memcpy_block (iv blk : list Z) :
  length iv = 16%nat -> length blk = 16%nat -> memcpy iv blk 16 = blk.
Proof.
  intros Hi Hb. unfold memcpy.
  rewrite firstn_all2, skipn_all2 by lia. apply app_nil_r.
Qed.

Section CbcMore.

Context {bp : BlockPrimitive}.

(** A single-block call reads 16 bytes of its input and no more. *)
Lemma ecb_reads_16 (ctx : AES_CTX) (m : aes_mode) (input : list Z)
    (e : Engine) :
  esp_aes_crypt_ecb ctx m input e
  = esp_aes_crypt_ecb ctx m (firstn 16 input) e.
Proof.
  unfold esp_aes_crypt_ecb.
  destruct (esp_aes_process_enable ctx m (AES_LOCK e)) as [c1 e1].
  unfold esp_aes_encrypt, esp_aes_decrypt, ets_aes_crypt.
  rewrite firstn_firstn. reflexivity.
Qed.

Lemma ecb_out_length (ctx : AES_CTX) (m : aes_mode) (input : list Z)
    (e : Engine) :
  sixteen_out bp ->
  let '(_, out, _, _) := esp_aes_crypt_ecb ctx m input e in
  length out = 16%nat.
Proof.
  intros H16. unfold esp_aes_crypt_ecb.
  destruct (esp_aes_process_enable ctx m (AES_LOCK e)) as [c1 e1].
  destruct m; apply H16.
Qed.



Lemma cbc_decrypt_loop_length (nblk : nat) :
  forall ctx e iv input,
    let '(_, _, _, w) := cbc_decrypt_loop nblk ctx e iv input in
    length w = (16 * nblk)%nat.
Proof.
  induction nblk as [| k IH]; intros ctx e iv input; [reflexivity |].
  cbn [cbc_decrypt_loop].
  destruct (esp_aes_crypt_ecb ctx AES_DECRYPT input e) as [[[r out] c1] e1].
  specialize (IH c1 e1 (memcpy iv (firstn 16 input) 16) (skipn 16 input)).
  destruct (cbc_decrypt_loop k c1 e1 _ _) as [[[c2 e2] iv2] rest].
  rewrite length_app, IH.
  destruct (xor_block_is_block out iv) as [Hl _]. rewrite Hl. lia.
Qed.

Lemma cbc_encrypt_loop_length (nblk : nat) :
  sixteen_out bp ->
  forall ctx e iv input,
    let '(_, _, _, w) := cbc_encrypt_loop nblk ctx e iv input in
    length w = (16 * nblk)%nat.
Proof.
  intros H16.
  induction nblk as [| k IH]; intros ctx e iv input; [reflexivity |].
  cbn [cbc_encrypt_loop].
  pose proof (ecb_out_length ctx AES_ENCRYPT (xor_block input iv) e H16)
    as Ho.
  destruct (esp_aes_crypt_ecb ctx AES_ENCRYPT (xor_block input iv) e)
    as [[[r out] c1] e1].
  specialize (IH c1 e1 (memcpy iv out 16) (skipn 16 input)).
  destruct (cbc_encrypt_loop k c1 e1 _ _) as [[[c2 e2] iv2] rest].
  rewrite length_app, IH, Ho. lia.
Qed.

Lemma cbc_encrypt_loop_app (a : nat) :
  forall p1 b p2 ctx e iv,
    length p1 = (16 * a)%nat ->
    cbc_encrypt_loop (a + b) ctx e iv (p1 ++ p2)
    = let '(ctx1, e1, iv1, w1) := cbc_encrypt_loop a ctx e iv p1 in
      let '(ctx2, e2, iv2, w2) := cbc_encrypt_loop b ctx1 e1 iv1 p2 in
      (ctx2, e2, iv2, w1 ++ w2).
Proof.
  induction a as [| k IH]; intros p1 b p2 ctx e iv Hl.
  - destruct p1; [| discriminate]. simpl.
    destruct (cbc_encrypt_loop b ctx e iv p2) as [[[c2 e2] iv2] w2].
    reflexivity.
  - cbn [Nat.add cbc_encrypt_loop].
    replace (xor_block (p1 ++ p2) iv) with (xor_block p1 iv)
      by (rewrite (xor_block_reads_16 (p1 ++ p2)), firstn_16_app by lia;
          apply xor_block_reads_16).
    rewrite skipn_16_app by lia.
    destruct (esp_aes_crypt_ecb ctx AES_ENCRYPT (xor_block p1 iv) e)
      as [[[r out] c1] e1].
    rewrite IH by (rewrite length_skipn; lia).
    destruct (cbc_encrypt_loop k c1 e1 _ (skipn 16 p1))
      as [[[c2 e2] iv2] w1].
    destruct (cbc_encrypt_loop b c2 e2 iv2 p2) as [[[c3 e3] iv3] w2].
    rewrite app_assoc. reflexivity.
Qed.

Lemma cbc_decrypt_loop_app (a : nat) :
  forall p1 b p2 ctx e iv,
    length p1 = (16 * a)%nat ->
    cbc_decrypt_loop (a + b) ctx e iv (p1 ++ p2)
    = let '(ctx1, e1, iv1, w1) := cbc_decrypt_loop a ctx e iv p1 in
      let '(ctx2, e2, iv2, w2) := cbc_decrypt_loop b ctx1 e1 iv1 p2 in
      (ctx2, e2, iv2, w1 ++ w2).
Proof.
  induction a as [| k IH]; intros p1 b p2 ctx e iv Hl.
  - destruct p1; [| discriminate]. simpl.
    destruct (cbc_decrypt_loop b ctx e iv p2) as [[[c2 e2] iv2] w2].
    reflexivity.
  - cbn [Nat.add cbc_decrypt_loop].
    replace (esp_aes_crypt_ecb ctx AES_DECRYPT (p1 ++ p2) e)
      with (esp_aes_crypt_ecb ctx AES_DECRYPT p1 e)
      by (rewrite (ecb_reads_16 ctx AES_DECRYPT (p1 ++ p2)),
            firstn_16_app by lia;
          apply ecb_reads_16).
    rewrite firstn_16_app, skipn_16_app by lia.
    destruct (esp_aes_crypt_ecb ctx AES_DECRYPT p1 e) as [[[r out] c1] e1].
    rewrite IH by (rewrite length_skipn; lia).
    destruct (cbc_decrypt_loop k c1 e1 _ (skipn 16 p1))
      as [[[c2 e2] iv2] w1].
    destruct (cbc_decrypt_loop b c2 e2 iv2 p2) as [[[c3 e3] iv3] w2].
    rewrite app_assoc. reflexivity.
Qed.

Lemma cbc_encrypt_loop_ctx (nblk : nat) :
  forall ctx e iv input,
    key_wf (enc ctx) ->
    let '(ctx', _, _, _) := cbc_encrypt_loop nblk ctx e iv input in
    ctx' = ctx.
Proof.
  induction nblk as [| k IH]; intros ctx e iv input Hk; [reflexivity |].
  cbn [cbc_encrypt_loop].
  destruct (ecb_effective ctx AES_ENCRYPT (xor_block input iv) e Hk)
    as (e1 & He & _).
  rewrite He.
  match goal with
  | |- context [cbc_encrypt_loop k ctx e1 ?iv' ?inp'] =>
      specialize (IH ctx e1 iv' inp' Hk);
      destruct (cbc_encrypt_loop k ctx e1 iv' inp') as [[[c2 e2] iv2] rest]
  end.
  exact IH.
Qed.

Lemma cbc_decrypt_loop_ctx (nblk : nat) :
  forall ctx e iv input,
    key_wf (dec ctx) ->
    let '(ctx', _, _, _) := cbc_decrypt_loop nblk ctx e iv input in
    ctx' = ctx.
Proof.
  induction nblk as [| k IH]; intros ctx e iv input Hk; [reflexivity |].
  cbn [cbc_decrypt_loop].
  destruct (ecb_effective ctx AES_DECRYPT input e Hk) as (e1 & He & _).
  rewrite He.
  match goal with
  | |- context [cbc_decrypt_loop k ctx e1 ?iv' ?inp'] =>
      specialize (IH ctx e1 iv' inp' Hk);
      destruct (cbc_decrypt_loop k ctx e1 iv' inp') as [[[c2 e2] iv2] rest]
  end.
  exact IH.
Qed.

(** After at least one block the IV is the last ciphertext block. *)
Lemma cbc_encrypt_loop_last (nblk : nat) :
  sixteen_out bp ->
  forall ctx e iv input,
    length iv = 16%nat ->
    let '(_, _, iv', w) := cbc_encrypt_loop (S nblk) ctx e iv input in
    iv' = firstn 16 (skipn (16 * nblk) w).
Proof.
  intros H16.
  induction nblk as [| k IH]; intros ctx e iv input Hiv.
  - cbn [cbc_encrypt_loop].
    pose proof (ecb_out_length ctx AES_ENCRYPT (xor_block input iv) e H16)
      as Ho.
    destruct (esp_aes_crypt_ecb ctx AES_ENCRYPT (xor_block input iv) e)
      as [[[r out] c1] e1].
    rewrite (memcpy_block iv out Hiv Ho), app_nil_r.
    change (16 * 0)%nat with 0%nat. cbn [skipn].
    rewrite firstn_all2 by lia. reflexivity.
  - cbn [cbc_encrypt_loop].
    pose proof (ecb_out_length ctx AES_ENCRYPT (xor_block input iv) e H16)
      as Ho.
    destruct (esp_aes_crypt_ecb ctx AES_ENCRYPT (xor_block input iv) e)
      as [[[r out] c1] e1].
    rewrite (memcpy_block iv out Hiv Ho).
    specialize (IH c1 e1 out (skipn 16 input) Ho).
    cbn [cbc_encrypt_loop] in IH.
    match goal with
    | |- context [esp_aes_crypt_ecb c1 AES_ENCRYPT ?x e1] =>
        destruct (esp_aes_crypt_ecb c1 AES_ENCRYPT x e1)
          as [[[r2 out2] c2] e2]
    end.
    destruct (cbc_encrypt_loop k c2 e2 _ _) as [[[c3 e3] iv3] rest].
    rewrite IH.
    replace (16 * S k)%nat with (length out + 16 * k)%nat by lia.
    rewrite <- skipn_twice, skipn_written. reflexivity.
Qed.

Lemma cbc_decrypt_loop_last (nblk : nat) :
  forall ctx e iv input,
    length iv = 16%nat ->
    (16 * S nblk <= length input)%nat ->
    let '(_, _, iv', _) := cbc_decrypt_loop (S nblk) ctx e iv input in
    iv' = firstn 16 (skipn (16 * nblk) input).
Proof.
  induction nblk as [| k IH]; intros ctx e iv input Hiv Hin.
  - cbn [cbc_decrypt_loop].
    destruct (esp_aes_crypt_ecb ctx AES_DECRYPT input e)
      as [[[r out] c1] e1].
    rewrite (memcpy_block iv (firstn 16 input))
      by (rewrite ?length_firstn; lia). reflexivity.
  - cbn [cbc_decrypt_loop].
    destruct (esp_aes_crypt_ecb ctx AES_DECRYPT input e)
      as [[[r out] c1] e1].
    rewrite (memcpy_block iv (firstn 16 input))
      by (rewrite ?length_firstn; lia).
    specialize (IH c1 e1 (firstn 16 input) (skipn 16 input)
                  ltac:(rewrite length_firstn; lia)
                  ltac:(rewrite length_skipn; lia)).
    cbn [cbc_decrypt_loop] in IH.
    destruct (esp_aes_crypt_ecb c1 AES_DECRYPT (skipn 16 input) e1)
      as [[[r2 out2] c2] e2].
    destruct (cbc_decrypt_loop k c2 e2 _ _) as [[[c3 e3] iv3] rest].
    rewrite IH, skipn_twice. f_equal. f_equal. lia.
Qed.

End CbcMore.

Lemma blocks_add (x y : nat) :
  (x mod 16 = 0)%nat -> (y mod 16 = 0)%nat ->
  ((x + y) mod 16 = 0)%nat /\ ((x + y) / 16 = x / 16 + y / 16)%nat /\
  x = (16 * (x / 16))%nat /\ y = (16 * (y / 16))%nat.
Proof.
  intros Hx Hy.
  pose proof (Nat.div_mod_eq x 16) as Ex.
  pose proof (Nat.div_mod_eq y 16) as Ey.
  rewrite Hx in Ex. rewrite Hy in Ey.
  assert (Hxy : (x + y = (x / 16 + y / 16) * 16)%nat) by lia.
  split; [rewrite Hxy; apply Nat.Div0.mod_mul |].
  split; [rewrite Hxy at 1; apply Nat.div_mul; discriminate |].
  split; lia.
Qed.

(** X10: CBC is resumable at block boundaries, in both directions.  For
    [p1] and [p2] of whole blocks, one call over [p1 ++ p2] gives
    exactly what a call over [p1] followed by a call over [p2] gives,
    when the second call is handed the context, engine and IV the first
    one left and the output pointer moved past the bytes the first one
    wrote. *)
Theorem cbc_resumable
    {bp : BlockPrimitive} (ctx : AES_CTX) (m : aes_mode)
    (p1 p2 iv out : list Z) (e : Engine) :
  sixteen_out bp ->
  (length p1 mod 16 = 0)%nat ->
  (length p2 mod 16 = 0)%nat ->
  esp_aes_crypt_cbc ctx m (length p1 + length p2) iv (p1 ++ p2) out e
  = let '(_, ctx1, e1, iv1, o1) :=
      esp_aes_crypt_cbc ctx m (length p1) iv p1 out e in
    let '(r2, ctx2, e2, iv2, o2) :=
      esp_aes_crypt_cbc ctx1 m (length p2) iv1 p2
        (skipn (length p1) o1) e1 in
    (r2, ctx2, e2, iv2, firstn (length p1) o1 ++ o2).
Proof.
  intros H16 H1 H2.
  destruct (blocks_add _ _ H1 H2) as (Hm & Hd & Ha & Hb).
  unfold esp_aes_crypt_cbc.
  apply Nat.eqb_eq in H1, H2, Hm. rewrite H1, H2, Hm, Hd. cbn [negb].
  destruct m.
  - rewrite (cbc_encrypt_loop_app (length p1 / 16) p1 _ p2) by exact Ha.
    pose proof (cbc_encrypt_loop_length (length p1 / 16) H16 ctx e iv p1)
      as Hl.
    destruct (cbc_encrypt_loop (length p1 / 16) ctx e iv p1)
      as [[[c1 e1] iv1] w1].
    rewrite <- Ha in Hl.
    destruct (cbc_encrypt_loop (length p2 / 16) c1 e1 iv1 p2)
      as [[[c2 e2] iv2] w2].
    rewrite <- Hl, firstn_written, skipn_written, skipn_twice, <- app_assoc.
    reflexivity.
  - rewrite (cbc_decrypt_loop_app (length p1 / 16) p1 _ p2) by exact Ha.
    pose proof (cbc_decrypt_loop_length (length p1 / 16) ctx e iv p1) as Hl.
    destruct (cbc_decrypt_loop (length p1 / 16) ctx e iv p1)
      as [[[c1 e1] iv1] w1].
    rewrite <- Ha in Hl.
    destruct (cbc_decrypt_loop (length p2 / 16) c1 e1 iv1 p2)
      as [[[c2 e2] iv2] w2].
    rewrite <- Hl, firstn_written, skipn_written, skipn_twice, <- app_assoc.
    reflexivity.
Qed.

(** X11: after a CBC call over at least one block, started with a
    16-byte IV, the IV handed back is the last ciphertext block: the
    last 16 bytes written when encrypting, the last 16 bytes read when
    decrypting. *)
Theorem cbc_final_iv_is_last_cipher_block
    {bp : BlockPrimitive} (ctx : AES_CTX) (m : aes_mode)
    (p iv out : list Z) (e : Engine) :
  sixteen_out bp ->
  length iv = 16%nat ->
  (0 < length p)%nat ->
  (length p mod 16 = 0)%nat ->
  let n := length p in
  let '(r, _, _, iv', o) := esp_aes_crypt_cbc ctx m n iv p out e in
  r = OK /\
  iv' = firstn 16 (skipn (n - 16)
                     match m with AES_ENCRYPT => o | AES_DECRYPT => p end).
Proof.
  intros H16 Hiv Hpos Hmod. cbv zeta.
  destruct (blocks_add _ _ Hmod Hmod) as (_ & _ & Ha & _).
  unfold esp_aes_crypt_cbc.
  apply Nat.eqb_eq in Hmod. rewrite Hmod. cbn [negb].
  destruct (length p / 16)%nat as [| k] eqn:Hk; [lia |].
  replace (length p - 16)%nat with (16 * k)%nat by lia.
  destruct m.
  - pose proof (cbc_encrypt_loop_last k H16 ctx e iv p Hiv) as Hlast.
    pose proof (cbc_encrypt_loop_length (S k) H16 ctx e iv p) as Hl.
    destruct (cbc_encrypt_loop (S k) ctx e iv p) as [[[c1 e1] iv1] w].
    split; [reflexivity |]. rewrite Hlast.
    rewrite skipn_app, firstn_app, length_skipn, Hl.
    replace (16 - (16 * S k - 16 * k))%nat with 0%nat by lia.
    symmetry. apply app_nil_r.
  - pose proof (cbc_decrypt_loop_last k ctx e iv p Hiv ltac:(lia)) as Hlast.
    destruct (cbc_decrypt_loop (S k) ctx e iv p) as [[[c1 e1] iv1] w].
    split; [reflexivity | exact Hlast].
Qed.

(** ** All modes *)

(** X12: the block and mode operations never write to a context whose
    key records are well formed: every one of them hands back the
    context it was given, on success and on error. *)
Theorem operations_keep_context
    {bp : BlockPrimitive} (ctx : AES_CTX) (m : aes_mode) (length : nat)
    (off : Z) (iv nc sb input output : list Z) (e : Engine) :
  ctx_wf ctx ->
  (let '(_, _, c, _) := esp_aes_crypt_ecb ctx m input e in c = ctx) /\
  (let '(_, c, _, _, _) :=
     esp_aes_crypt_cbc ctx m length iv input output e in c = ctx) /\
  (let '(_, c, _, _, _, _) :=
     esp_aes_crypt_cfb128 ctx m length off iv input output e in c = ctx) /\
  (let '(_, c, _, _, _) :=
     esp_aes_crypt_cfb8 ctx m length iv input output e in c = ctx) /\
  (let '(_, c, _, _, _, _, _) :=
     esp_aes_crypt_ctr ctx length off nc sb input output e in c = ctx).
Proof.
  intros [He Hd].
  assert (Hm : key_wf (side ctx m)) by (destruct m; assumption).
  split; [| split; [| split; [| split]]].
  - destruct (ecb_effective ctx m input e Hm) as (e1 & H1 & _).
    rewrite H1. reflexivity.
  - unfold esp_aes_crypt_cbc.
    destruct (negb (length mod 16 =? 0)%nat); [reflexivity |].
    destruct m.
    + pose proof (cbc_encrypt_loop_ctx (length / 16) ctx e iv input He) as H.
      destruct (cbc_encrypt_loop _ ctx e iv input) as [[[c1 e1] iv1] w].
      exact H.
    + pose proof (cbc_decrypt_loop_ctx (length / 16) ctx e iv input Hd) as H.
      destruct (cbc_decrypt_loop _ ctx e iv input) as [[[c1 e1] iv1] w].
      exact H.
  - unfold esp_aes_crypt_cfb128. destruct m.
    + pose proof (cfb128_encrypt_loop_ctx length ctx e off iv input He) as H.
      destruct (cfb128_encrypt_loop _ ctx e off iv input)
        as [[[[c1 e1] n1] iv1] w].
      exact H.
    + pose proof (cfb128_decrypt_loop_ctx length ctx e off iv input He) as H.
      destruct (cfb128_decrypt_loop _ ctx e off iv input)
        as [[[[c1 e1] n1] iv1] w].
      exact H.
  - unfold esp_aes_crypt_cfb8.
    pose proof (cfb8_loop_ctx length ctx m e iv input He) as H.
    destruct (cfb8_loop _ ctx m e iv input) as [[[c1 e1] iv1] w].
    exact H.
  - unfold esp_aes_crypt_ctr.
    pose proof (ctr_loop_ctx length ctx e off nc sb input He) as H.
    destruct (ctr_loop _ ctx e off nc sb input)
      as [[[[[c1 e1] n1] nc1] sb1] w].
    exact H.
Qed.

(** X13: CFB-128 and CFB-8, in both directions, and CTR never read the
    decrypt key record: replacing it by anything leaves the return
    value, the engine, the chaining state and the output as they were.
    Decryption in these modes runs under the encrypt key. *)
Theorem stream_modes_ignore_decrypt_key
    {bp : BlockPrimitive} (ctx : AES_CTX) (k : key_context) (m : aes_mode)
    (length : nat) (off : Z) (iv nc sb input output : list Z) (e : Engine) :
  esp_aes_crypt_cfb128 (set_dec ctx k) m length off iv input output e
  = (let '(r, c, e', off', iv', o) :=
       esp_aes_crypt_cfb128 ctx m length off iv input output e in
     (r, set_dec c k, e', off', iv', o)) /\
  esp_aes_crypt_cfb8 (set_dec ctx k) m length iv input output e
  = (let '(r, c, e', iv', o) :=
       esp_aes_crypt_cfb8 ctx m length iv input output e in
     (r, set_dec c k, e', iv', o)) /\
  esp_aes_crypt_ctr (set_dec ctx k) length off nc sb input output e
  = (let '(r, c, e', off', nc', sb', o) :=
       esp_aes_crypt_ctr ctx length off nc sb input output e in
     (r, set_dec c k, e', off', nc', sb', o)).
Proof.
  split; [| split].
  - unfold esp_aes_crypt_cfb128. destruct m.
    + rewrite cfb128_encrypt_loop_ignores_dec.
      destruct (cfb128_encrypt_loop _ ctx e off iv input)
        as [[[[c1 e1] n1] iv1] w].
      reflexivity.
    + rewrite cfb128_decrypt_loop_ignores_dec.
      destruct (cfb128_decrypt_loop _ ctx e off iv input)
        as [[[[c1 e1] n1] iv1] w].
      reflexivity.
  - unfold esp_aes_crypt_cfb8. rewrite cfb8_loop_ignores_dec.
    destruct (cfb8_loop _ ctx m e iv input) as [[[c1 e1] iv1] w].
    reflexivity.
  - unfold esp_aes_crypt_ctr. rewrite ctr_loop_ignores_dec.
    destruct (ctr_loop _ ctx e off nc sb input)
      as [[[[[c1 e1] n1] nc1] sb1] w].
    reflexivity.
Qed.


(** X15: the stream modes write exactly [length] bytes.  When the
    output buffer holds at least [length] bytes, a CFB-128, CFB-8 or CTR
    call hands back a buffer of the same size whose bytes from position
    [length] on are untouched. *)
Theorem stream_modes_write_exactly_length
    {bp : BlockPrimitive} (ctx : AES_CTX) (m : aes_mode) (len : nat)
    (off : Z) (iv nc sb input output : list Z) (e : Engine) :
  (len <= length output)%nat ->
  (let '(_, _, _, _, _, o) :=
     esp_aes_crypt_cfb128 ctx m len off iv input output e in
   length o = length output /\ skipn len o = skipn len output) /\
  (let '(_, _, _, _, o) :=
     esp_aes_crypt_cfb8 ctx m len iv input output e in
   length o = length output /\ skipn len o = skipn len output) /\
  (let '(_, _, _, _, _, _, o) :=
     esp_aes_crypt_ctr ctx len off nc sb input output e in
   length o = length output /\ skipn len o = skipn len output).
Proof.
  intros Hlen.
  assert (Hframe : forall w : list Z,
             length w = len ->
             length (w ++ skipn len output) = length output /\
             skipn len (w ++ skipn len output) = skipn len output).
  { intros w Hw. split.
    - rewrite length_app, length_skipn. lia.
    - rewrite <- Hw at 1. apply skipn_written. }
  split; [| split].
  - unfold esp_aes_crypt_cfb128. destruct m.
    + pose proof (cfb128_encrypt_loop_length len ctx e off iv input) as H.
      destruct (cfb128_encrypt_loop _ ctx e off iv input)
        as [[[[c1 e1] n1] iv1] w].
      apply Hframe, H.
    + pose proof (cfb128_decrypt_loop_length len ctx e off iv input) as H.
      destruct (cfb128_decrypt_loop _ ctx e off iv input)
        as [[[[c1 e1] n1] iv1] w].
      apply Hframe, H.
  - unfold esp_aes_crypt_cfb8.
    pose proof (cfb8_loop_shape len ctx m e iv input) as H.
    destruct (cfb8_loop _ ctx m e iv input) as [[[c1 e1] iv1] w].
    apply Hframe, H.
  - unfold esp_aes_crypt_ctr.
    pose proof (ctr_loop_length len ctx e off nc sb input) as H.
    destruct (ctr_loop _ ctx e off nc sb input)
      as [[[[[c1 e1] n1] nc1] sb1] w].
    apply Hframe, H.
Qed.

(** ** Context life cycle, further *)

Lemma life_run_refcount (ops : list life_op) :
  forall e,
    paired (refcount e) ops = true ->
    (refcount (life_run ops e) + free_calls ops
     = refcount e + init_calls ops)%nat.
Proof.
  induction ops as [| op ops IH]; intros e Hp.
  - unfold free_calls, init_calls. simpl. lia.
  - change (life_run (op :: ops) e) with (life_run ops (life_step e op)).
    destruct op as [c | [c |]].
    + change (life_step e (OpInit c)) with (snd (esp_aes_init c e)) in *.
      destruct (init_effect c e) as (Hs & _).
      simpl in Hp.
      specialize (IH (snd (esp_aes_init c e))).
      rewrite Hs in IH. specialize (IH Hp).
      unfold free_calls, init_calls in *.
      cbn [filter is_live_free is_init length]. lia.
    + change (life_step e (OpFree (Some c)))
        with (snd (esp_aes_free (Some c) e)) in *.
      destruct (free_effect c e) as (Hs & _).
      simpl in Hp. apply Bool.andb_true_iff in Hp. destruct Hp as [Hpos Hp].
      apply Nat.ltb_lt in Hpos.
      specialize (IH (snd (esp_aes_free (Some c) e))).
      rewrite Hs in IH. specialize (IH Hp).
      unfold free_calls, init_calls in *.
      cbn [filter is_live_free is_init length]. lia.
    + change (life_step e (OpFree None)) with e.
      simpl in Hp. specialize (IH e Hp).
      unfold free_calls, init_calls in *.
      cbn [filter is_live_free is_init length]. lia.
Qed.

(** X16: over every sequence of inits and frees, started on the idle
    engine, in which each free of a non-null context releases a live
    reference, the reference count is the number of inits minus the
    number of frees of non-null contexts; once every initialised
    context has been freed the count is 0 and the engine is switched
    off. *)
Theorem lifecycle_refcount_balance (ops : list life_op) :
  paired 0 ops = true ->
  (free_calls ops <= init_calls ops)%nat /\
  refcount (life_run ops engine0) = (init_calls ops - free_calls ops)%nat /\
  (init_calls ops = free_calls ops ->
   refcount (life_run ops engine0) = 0%nat /\
   enabled (life_run ops engine0) = false).
Proof.
  intros Hp.
  pose proof (life_run_refcount ops engine0 Hp) as Hr. simpl in Hr.
  destruct (life_run_counts ops engine0 Hp eq_refl) as (_ & _ & Hen).
  split; [lia |]. split; [lia |].
  intros Heq. assert (H0 : refcount (life_run ops engine0) = 0%nat) by lia.
  split; [exact H0 |]. rewrite Hen, H0. reflexivity.
Qed.

(** ** The further properties at work on the small block primitive *)

Ltac concrete_ctx_wf :=
  split; left; concrete_key_set.

Lemma ecb_runs_under_own_key_witness :
  let e := install AES_DECRYPT (repeat 9 16) AES256 engine0 in
  let '(r, out, ctx', e') :=
    esp_aes_crypt_ecb (bp := toy) (keyed 1 2) AES_ENCRYPT (repeat 3 20) e in
  r = OK /\
  out = ecb_of (bp := toy) (keyed 1 2) AES_ENCRYPT (firstn 16 (repeat 3 20)) /\
  ctx' = keyed 1 2 /\
  sched e' = recorded (keyed 1 2) AES_ENCRYPT /\
  refcount e' = refcount e /\ enabled e' = enabled e.
Proof.
  apply (ecb_runs_under_own_key (bp := toy) (keyed 1 2) AES_ENCRYPT
           (repeat 3 20)
           (install AES_DECRYPT (repeat 9 16) AES256 engine0)).
  concrete_key_set.
Defined.

Lemma ecb_round_trip_same_key_witness :
  let b := repeat 250 16 in
  let e2 := install AES_ENCRYPT (repeat 9 16) AES128 engine0 in
  let '(r1, c, ctx1, _) :=
    esp_aes_crypt_ecb (bp := toy) (keyed 7 7) AES_ENCRYPT b engine0 in
  let '(r2, b', _, _) :=
    esp_aes_crypt_ecb (bp := toy) ctx1 AES_DECRYPT c e2 in
  r1 = OK /\ r2 = OK /\ b' = b.
Proof.
  apply (ecb_round_trip_same_key (bp := toy) (keyed 7 7) (repeat 250 16)
           engine0 (install AES_ENCRYPT (repeat 9 16) AES128 engine0)).
  - concrete_key_set.
  - reflexivity.
  - exact toy_sixteen_out.
  - exact toy_inverts.
  - split; [reflexivity | concrete_bytes].
Defined.

Lemma cfb128_round_trip_witness :
  let p := [1; 2; 3; 4; 5; 250; 251; 252; 253; 254; 255; 0; 9; 8; 7; 6;
            5; 4; 3] in
  let iv := repeat 17 16 in
  let n := length p in
  let '(r1, _, _, off1, iv1, c) :=
    esp_aes_crypt_cfb128 (bp := toy) (keyed 1 2) AES_ENCRYPT n 11 iv p
      (zeros 19) engine0 in
  let '(r2, _, _, off2, iv2, p') :=
    esp_aes_crypt_cfb128 (bp := toy) (keyed 1 2) AES_DECRYPT n 11 iv c
      (zeros 19) engine0 in
  r1 = OK /\ r2 = OK /\ firstn n p' = p /\ off2 = off1 /\ iv2 = iv1.
Proof.
  apply (cfb128_round_trip (bp := toy) (keyed 1 2) 11
           [1; 2; 3; 4; 5; 250; 251; 252; 253; 254; 255; 0; 9; 8; 7; 6;
            5; 4; 3]
           (repeat 17 16) (zeros 19) (zeros 19) engine0 engine0).
  - concrete_key_set.
  - concrete_bytes.
Defined.

Lemma ctr_counter_advance_witness :
  let nc := repeat 255 16 in
  let '(_, _, _, _, nc', _, _) :=
    esp_aes_crypt_ctr (bp := toy) (keyed 1 2) 40 5 nc (zeros 16)
      (repeat 3 40) (zeros 40) engine0 in
  block nc' /\
  be_val nc' = (be_val nc + Z.of_nat (refreshes 5 40)) mod 2 ^ 128 /\
  Z.of_nat (refreshes 0 40) = (Z.of_nat 40 + 15) / 16.
Proof.
  apply (ctr_counter_advance (bp := toy) (keyed 1 2) 40 5 (repeat 255 16)
           (zeros 16) (repeat 3 40) (zeros 40) engine0).
  - split; [reflexivity | concrete_bytes].
  - lia.
Defined.

Lemma cbc_resumable_witness :
  let p1 := repeat 1 16 in
  let p2 := repeat 2 32 in
  let iv := repeat 17 16 in
  esp_aes_crypt_cbc (bp := toy) (keyed 5 6) AES_DECRYPT
    (length p1 + length p2) iv (p1 ++ p2) (zeros 50) engine0
  = let '(_, ctx1, e1, iv1, o1) :=
      esp_aes_crypt_cbc (bp := toy) (keyed 5 6) AES_DECRYPT (length p1) iv
        p1 (zeros 50) engine0 in
    let '(r2, ctx2, e2, iv2, o2) :=
      esp_aes_crypt_cbc (bp := toy) ctx1 AES_DECRYPT (length p2) iv1 p2
        (skipn (length p1) o1) e1 in
    (r2, ctx2, e2, iv2, firstn (length p1) o1 ++ o2).
Proof.
  apply (cbc_resumable (bp := toy) (keyed 5 6) AES_DECRYPT (repeat 1 16)
           (repeat 2 32) (repeat 17 16) (zeros 50) engine0).
  - exact toy_sixteen_out.
  - reflexivity.
  - reflexivity.
Defined.

Lemma cbc_final_iv_is_last_cipher_block_witness :
  let p := repeat 1 16 ++ repeat 2 16 in
  let iv := repeat 17 16 in
  let n := length p in
  let '(r, _, _, iv', o) :=
    esp_aes_crypt_cbc (bp := toy) (keyed 5 6) AES_ENCRYPT n iv p (zeros 40)
      engine0 in
  r = OK /\
  iv' = firstn 16 (skipn (n - 16) o).
Proof.
  apply (cbc_final_iv_is_last_cipher_block (bp := toy) (keyed 5 6)
           AES_ENCRYPT (repeat 1 16 ++ repeat 2 16) (repeat 17 16)
           (zeros 40) engine0).
  - exact toy_sixteen_out.
  - reflexivity.
  - simpl. lia.
  - reflexivity.
Defined.

Lemma operations_keep_context_witness :
  let ctx := keyed 1 2 in
  let input := repeat 3 32 in
  (let '(_, _, c, _) :=
     esp_aes_crypt_ecb (bp := toy) ctx AES_DECRYPT input engine0 in
   c = ctx) /\
  (let '(_, c, _, _, _) :=
     esp_aes_crypt_cbc (bp := toy) ctx AES_DECRYPT 32 (zeros 16) input
       (zeros 32) engine0 in c = ctx) /\
  (let '(_, c, _, _, _, _) :=
     esp_aes_crypt_cfb128 (bp := toy) ctx AES_DECRYPT 32 3 (zeros 16) input
       (zeros 32) engine0 in c = ctx) /\
  (let '(_, c, _, _, _) :=
     esp_aes_crypt_cfb8 (bp := toy) ctx AES_DECRYPT 32 (zeros 16) input
       (zeros 32) engine0 in c = ctx) /\
  (let '(_, c, _, _, _, _, _) :=
     esp_aes_crypt_ctr (bp := toy) ctx 32 3 (zeros 16) (zeros 16) input
       (zeros 32) engine0 in c = ctx).
Proof.
  apply (operations_keep_context (bp := toy) (keyed 1 2) AES_DECRYPT 32 3
           (zeros 16) (zeros 16) (zeros 16) (repeat 3 32) (zeros 32)
           engine0).
  concrete_ctx_wf.
Defined.


Lemma stream_modes_write_exactly_length_witness :
  let input := repeat 3 20 in
  let output := repeat 99 25 in
  (let '(_, _, _, _, _, o) :=
     esp_aes_crypt_cfb128 (bp := toy) (keyed 1 2) AES_DECRYPT 20 7
       (zeros 16) input output engine0 in
   length o = length output /\ skipn 20 o = skipn 20 output) /\
  (let '(_, _, _, _, o) :=
     esp_aes_crypt_cfb8 (bp := toy) (keyed 1 2) AES_DECRYPT 20 (zeros 16)
       input output engine0 in
   length o = length output /\ skipn 20 o = skipn 20 output) /\
  (let '(_, _, _, _, _, _, o) :=
     esp_aes_crypt_ctr (bp := toy) (keyed 1 2) 20 7 (zeros 16) (zeros 16)
       input output engine0 in
   length o = length output /\ skipn 20 o = skipn 20 output).
Proof.
  apply (stream_modes_write_exactly_length (bp := toy) (keyed 1 2)
           AES_DECRYPT 20 7 (zeros 16) (zeros 16) (zeros 16) (repeat 3 20)
           (repeat 99 25) engine0).
  simpl. lia.
Defined.

Lemma lifecycle_refcount_balance_witness :
  let ops := [OpInit ctx_zero; OpInit ctx_zero; OpFree (Some ctx_zero);
              OpFree None; OpFree (Some ctx_zero)] in
  (free_calls ops <= init_calls ops)%nat /\
  refcount (life_run ops engine0) = (init_calls ops - free_calls ops)%nat /\
  (init_calls ops = free_calls ops ->
   refcount (life_run ops engine0) = 0%nat /\
   enabled (life_run ops engine0) = false).
Proof.
  apply (lifecycle_refcount_balance
           [OpInit ctx_zero; OpInit ctx_zero; OpFree (Some ctx_zero);
            OpFree None; OpFree (Some ctx_zero)]).
  reflexivity.
Defined.
